(** * GABStudy: the review scheduler and the session picker

    A shallow embedding of [src/logic/reviewScheduler.ts],
    [src/logic/sessionPicker.ts] and [src/constants/categories.ts], and the
    properties of them that the specification states; and of the places of
    the screens that call them: the map of latest attempts, the list of slow
    problems and the weakness test of the learn screen, the review entries
    that the screens store, and the answers and the result of a test session.

    Conventions of the embedding:
    - a JavaScript [number] that the program uses as a count, a stage, a
      duration or a time value is a [Z]; a quotient that the program does not
      round ([overTime / 1000], [correct / total]) is a [Q];
    - a [Map<string, V>] is an insertion-ordered association list ([JsMap]):
      [generateRecommendations] iterates over one, so the order is part of
      the value; a [Set<string>] of which only [has] is used is a [gset];
    - the clock ([new Date()]), the calendar ([setDate], [toISOString],
      [new Date(s)]) and the collation ([localeCompare]) are not code of the
      repository: they are the variables of the sections below;
    - a call that can throw returns an [Outcome]. *)

From Stdlib Require Import ZArith QArith Qround Qminmax Lia Lqa.
From stdpp Require Import gmap strings list sorting pretty.

Local Open Scope Z_scope.

(** ** Data model ([src/types/index.ts]) *)

Inductive Category := table | bar | pie | composite.

#[global] Instance Category_eq_dec : EqDecision Category.
Proof. solve_decision. Defined.

Definition Category_code (c : Category) : nat :=
  match c with table => 0 | bar => 1 | pie => 2 | composite => 3 end%nat.

Definition Category_decode (n : nat) : Category :=
  match n with O => table | 1%nat => bar | 2%nat => pie | _ => composite end.

#[global] Instance Category_countable : Countable Category.
Proof.
  apply (inj_countable' Category_code Category_decode).
  intros c. destruct c; reflexivity.
Defined.

(** [type Difficulty = 1 | 2 | 3] *)
Inductive Difficulty := star1 | star2 | star3.

Definition Difficulty_num (d : Difficulty) : Z :=
  match d with star1 => 1 | star2 => 2 | star3 => 3 end.

(** The fields of [Problem] that hold text or pictures for the screens
    ([imageUri], [choices], [explanation], [commonMistakes]) are read by no
    function of the two logic files and are left out. *)
Module Problem.
Record t := mk {
    id : string;
    category : Category;
    difficulty : Difficulty;
    question : string;
    correctIndex : Z;
    targetTimeSec : Z
}.
End Problem.

Module Attempt.
Record t := mk {
    id : string;
    problemId : string;
    answeredAt : string;
    isCorrect : bool;
    selectedIndex : Z;
    timeMs : Z;
    calcHistory : option string
}.
End Attempt.

Module ReviewQueueItem.
Record t := mk {
    problemId : string;
    nextReviewAt : string;
    stage : Z
}.
End ReviewQueueItem.

(** ** JavaScript values the code relies on *)

(** A call either returns or throws. *)
Inductive JsError := RangeError (message : string).

Inductive Outcome (A : Type) :=
| Returns (a : A)
| Throws (e : JsError).
Arguments Returns {A} a.
Arguments Throws {A} e.

(** [arr[i]] for an integer [i]: [undefined] (here [None]) outside
    [0 .. length - 1]. *)
Definition Array_get {A} (arr : list A) (i : Z) : option A :=
  if i <? 0 then None else arr !! Z.to_nat i.

(** [arr.slice(0, end)] for an integer [end]; a negative [end] counts from
    the end of the array. *)
Definition Array_slice0 {A} (arr : list A) (e : Z) : list A :=
  if e <? 0 then take (Z.to_nat (Z.max (Z.of_nat (length arr) + e) 0)) arr
  else take (Z.to_nat e) arr.

(** [arr.sort(cmp)]: the sort of ECMAScript is stable, so [x], which stands
    before the already sorted [y :: l], stays before [y] unless [cmp(x, y)]
    is positive. [nonpos x y] is the test [cmp(x, y) <= 0]. *)
Fixpoint Array_sort_insert {A} (nonpos : A → A → bool) (x : A) (l : list A) : list A :=
  match l with
  | [] => [x]
  | y :: l' => if nonpos x y then x :: y :: l' else y :: Array_sort_insert nonpos x l'
  end.

Fixpoint Array_sort {A} (nonpos : A → A → bool) (l : list A) : list A :=
  match l with
  | [] => []
  | x :: l' => Array_sort_insert nonpos x (Array_sort nonpos l')
  end.

(** [Map<K, V>]: entries in insertion order, one per key. *)
Module JsMap.
Section Ops.
Context {K V : Type} `{EqDecision K}.

Definition get (m : list (K * V)) (k : K) : option V :=
  snd <$> List.find (λ kv, bool_decide (fst kv = k)) m.

Definition has (m : list (K * V)) (k : K) : bool :=
  match get m k with Some _ => true | None => false end.

(** [set] keeps the position of a key that is present and appends a new one. *)
Fixpoint set (m : list (K * V)) (k : K) (v : V) : list (K * V) :=
  match m with
  | [] => [(k, v)]
  | kv :: m' => if bool_decide (fst kv = k) then (k, v) :: m' else kv :: set m' k v
  end.

End Ops.
End JsMap.

(** [a < b] on exact quotients. *)
Definition Qlt_bool (a b : Q) : bool := negb (Qle_bool b a).

(** [Math.ceil] and [Math.round] (half up) of a quotient. *)
Definition Math_ceil (x : Q) : Z := Qceiling x.
Definition Math_round (x : Q) : Z := Qfloor (x + (1 # 2))%Q.

(** ** [src/constants/categories.ts] *)

Module CategoryInfo.
Record t := mk {
    id : Category;
    label : string;
    labelShort : string;
    icon : string;
    targetTimeSec : Z;
    color : string
}.
End CategoryInfo.

Definition CATEGORIES : list CategoryInfo.t :=
  [ CategoryInfo.mk table "表の読み取り" "表" "grid-outline" 55 "#2563EB";
    CategoryInfo.mk bar "棒グラフ" "棒" "bar-chart-outline" 45 "#7C3AED";
    CategoryInfo.mk pie "円グラフ" "円" "pie-chart-outline" 40 "#D97706";
    CategoryInfo.mk composite "複合グラフ" "複合" "analytics-outline" 55 "#16A34A" ].

(** [Object.fromEntries]: a later entry of the same key replaces an earlier one. *)
Definition Object_fromEntries {K V} `{Countable K} (entries : list (K * V)) : gmap K V :=
  foldl (λ m kv, <[fst kv := snd kv]> m) ∅ entries.

Definition CATEGORY_MAP : gmap Category CategoryInfo.t :=
  Object_fromEntries (map (λ c, (CategoryInfo.id c, c)) CATEGORIES).

Definition REVIEW_INTERVALS_DAYS : list Z := [1; 3; 7; 14; 30].

(** ** [src/logic/sessionPicker.ts]: the category target times *)

Definition estimateSolveSeconds (category : Category) : Z :=
  match CATEGORY_MAP !! category with
  | Some info => CategoryInfo.targetTimeSec info
  | None => 50
  end.

Definition targetTimeForCategory (category : Category) : Z :=
  match CATEGORY_MAP !! category with
  | Some info => CategoryInfo.targetTimeSec info
  | None => 50
  end.

(** ** A concrete environment

    The theorems below hold for every clock, calendar and collation. Where a
    closed instance is needed, this one is used: time values are milliseconds,
    a day has 86400000 of them, a time value is printed and read back as its
    decimal digits, and strings are compared by their code units. *)

Definition fixedAddDays (t days : Z) : Z := t + days * 86400000.

Definition decimalToISOString (t : Z) : string := pretty t.

Definition digitValue (c : Ascii.ascii) : option Z :=
  let n := Z.of_N (Ascii.N_of_ascii c) in
  if (48 <=? n) && (n <=? 57) then Some (n - 48) else None.

Fixpoint decimalParseFrom (acc : Z) (s : string) : option Z :=
  match s with
  | EmptyString => Some acc
  | String c s' =>
      match digitValue c with
      | Some d => decimalParseFrom (acc * 10 + d) s'
      | None => None
      end
  end.

Definition decimalParse (s : string) : option Z :=
  match s with
  | EmptyString => None
  | _ => decimalParseFrom 0 s
  end.

Definition codeUnitCompare (a b : string) : Z :=
  match String.compare a b with
  | Lt => -1
  | Eq => 0
  | Gt => 1
  end.

(** The scenario of the specification: three problems, of which A was
    answered correctly in 80 seconds and B incorrectly, and C not at all. *)
Definition problemA : Problem.t := Problem.mk "A" table star1 "" 0 50.
Definition problemB : Problem.t := Problem.mk "B" bar star2 "" 0 45.
Definition problemC : Problem.t := Problem.mk "C" pie star3 "" 0 40.

Definition attemptA : Attempt.t :=
  Attempt.mk "a1" "A" "2024-05-01T09:00:00.000Z" true 2 80000 None.
Definition attemptB : Attempt.t :=
  Attempt.mk "a2" "B" "2024-05-02T09:00:00.000Z" false 1 30000 None.

Definition scenarioAttempts : list (string * Attempt.t) :=
  [("A", attemptA); ("B", attemptB)].

(** The same, with A only 5 seconds over the target time of its category. *)
Definition attemptA60 : Attempt.t :=
  Attempt.mk "a3" "A" "2024-05-03T09:00:00.000Z" true 2 60000 None.

Definition nearMissAttempts : list (string * Attempt.t) :=
  [("A", attemptA60); ("B", attemptB)].

(** An entry for C that is due, and one for A that is not yet due at time 1000. *)
Definition reviewC : ReviewQueueItem.t := ReviewQueueItem.mk "C" "999" 1.
Definition reviewA : ReviewQueueItem.t := ReviewQueueItem.mk "A" "1001" 2.

(** A fourth problem, D, after A, B and C in the catalog. In [slowAttempts]
    A and D are both answered correctly over the target time of their
    category, D, the later one in the catalog, 10 seconds slower than A. In
    [wrongAttempts] B and D are both answered incorrectly, D, the later one
    in the catalog, two days before B. *)
Definition problemD : Problem.t := Problem.mk "D" composite star2 "" 0 55.

Definition attemptDslow : Attempt.t :=
  Attempt.mk "a4" "D" "2024-05-04T09:00:00.000Z" true 3 90000 None.

Definition slowAttempts : list (string * Attempt.t) :=
  [("A", attemptA); ("D", attemptDslow)].

Definition attemptDwrong : Attempt.t :=
  Attempt.mk "a5" "D" "2024-04-30T09:00:00.000Z" false 0 20000 None.

Definition wrongAttempts : list (string * Attempt.t) :=
  [("B", attemptB); ("D", attemptDwrong)].

(** ** The stage walk, in the words of the specification

    An absent entry counts as stage 0; a correct answer adds one to the
    stage; an incorrect one takes one away, but not below 0. *)

Definition stageOf (currentItem : option ReviewQueueItem.t) : Z :=
  match currentItem with
  | Some item => ReviewQueueItem.stage item
  | None => 0
  end.

Definition stageAfter (stage : Z) (isCorrect : bool) : Z :=
  if isCorrect then stage + 1 else Z.max (stage - 1) 0.

Fixpoint stageWalk (stage : Z) (answers : list bool) : list Z :=
  match answers with
  | [] => []
  | isCorrect :: rest =>
      stageAfter stage isCorrect :: stageWalk (stageAfter stage isCorrect) rest
  end.

(** ** First pool wins, in the words of the specification

    The problems of a list whose id has not occurred before, neither in
    [seen] nor earlier in the list. *)
Fixpoint firstOccurrences (seen : gset string) (l : list Problem.t) : list Problem.t :=
  match l with
  | [] => []
  | p :: l' =>
      if bool_decide (Problem.id p ∈ seen) then firstOccurrences seen l'
      else p :: firstOccurrences ({[Problem.id p]} ∪ seen) l'
  end.

(** ** The weakness score, in the words of the specification

    10 for an incorrect answer, plus the seconds over the target time. *)
Definition weaknessScore (isCorrect : bool) (elapsedMs targetMs : Z) : Q :=
  ((if isCorrect then 0 else 10) + Qmax 0 (inject_Z (elapsedMs - targetMs) / 1000))%Q.

(** ** The test session ([src/unnamed/part_007])

    The answers of a test session are a piece of state that three updaters
    change: the first fills it with one open answer for each problem, the
    second records a choice at the current index, the third flips the flag
    there. Both updaters leave the state alone when it has nothing at the
    index. *)
Module SessionAnswer.
Record t := mk {
  problemId : string;
  selectedIndex : option Z;
  isCorrect : option bool;
  timeMs : Z;
  flagged : bool
}.
End SessionAnswer.

(** Lines 100 to 108. *)
Definition initialAnswers (probs : list Problem.t) : list SessionAnswer.t :=
  map (λ p, SessionAnswer.mk (Problem.id p) None None 0 false) probs.

(** [handleSelectChoice], lines 119 to 138; [timeMs] is the time since the
    question was shown. *)
Definition handleSelectChoice (problems : list Problem.t) (currentIndex : nat)
    (index : Z) (timeMs : Z) (prev : list SessionAnswer.t) : list SessionAnswer.t :=
  let isCorrect :=
    match problems !! currentIndex with
    | Some currentProblem => index =? Problem.correctIndex currentProblem
    | None => false
    end in
  match prev !! currentIndex with
  | Some old =>
      <[currentIndex :=
          SessionAnswer.mk (SessionAnswer.problemId old) (Some index) (Some isCorrect)
            timeMs (SessionAnswer.flagged old)]> prev
  | None => prev
  end.

(** [toggleFlag], lines 156 to 167. *)
Definition toggleFlag (currentIndex : nat) (prev : list SessionAnswer.t)
    : list SessionAnswer.t :=
  match prev !! currentIndex with
  | Some old =>
      <[currentIndex :=
          SessionAnswer.mk (SessionAnswer.problemId old) (SessionAnswer.selectedIndex old)
            (SessionAnswer.isCorrect old) (SessionAnswer.timeMs old)
            (negb (SessionAnswer.flagged old))]> prev
  | None => prev
  end.

Inductive SessionEvent :=
| SelectChoice (currentIndex : nat) (index : Z) (timeMs : Z)
| ToggleFlag (currentIndex : nat).

Definition applyEvent (problems : list Problem.t) (answers : list SessionAnswer.t)
    (event : SessionEvent) : list SessionAnswer.t :=
  match event with
  | SelectChoice currentIndex index timeMs =>
      handleSelectChoice problems currentIndex index timeMs answers
  | ToggleFlag currentIndex => toggleFlag currentIndex answers
  end.

(** The answers after a run of events on a freshly loaded session. *)
Definition sessionAnswers (problems : list Problem.t) (events : list SessionEvent)
    : list SessionAnswer.t :=
  foldl (applyEvent problems) (initialAnswers problems) events.

(** [answer.isCorrect] as a condition: [null] counts as false. *)
Definition answeredCorrectly (a : SessionAnswer.t) : bool :=
  default false (SessionAnswer.isCorrect a).

(** A value of [categoryMap] in [finishTest]. *)
Record CategoryTally := mkCategoryTally {
  tallyTotal : Z;
  tallyCorrect : Z;
  tallyTotalTimeMs : Z
}.

Module CategoryScore.
Record t := mk {
  category : Category;
  total : Z;
  correct : Z;
  averageTimeMs : Z
}.
End CategoryScore.

(** One turn of the second loop of [finishTest], lines 229 to 245. The loop
    runs over the indices of [answers], so [answers[i]] is always there. *)
Definition breakdownStep (problems : list Problem.t) (answers : list SessionAnswer.t)
    (categoryMap : list (Category * CategoryTally)) (i : nat)
    : list (Category * CategoryTally) :=
  match problems !! i, answers !! i with
  | Some problem, Some answer =>
      let cat :=
        default (mkCategoryTally 0 0 0) (JsMap.get categoryMap (Problem.category problem)) in
      let cat := mkCategoryTally (tallyTotal cat + 1) (tallyCorrect cat) (tallyTotalTimeMs cat) in
      let cat :=
        if answeredCorrectly answer
        then mkCategoryTally (tallyTotal cat) (tallyCorrect cat + 1) (tallyTotalTimeMs cat)
        else cat in
      let cat :=
        mkCategoryTally (tallyTotal cat) (tallyCorrect cat)
          (tallyTotalTimeMs cat + SessionAnswer.timeMs answer) in
      JsMap.set categoryMap (Problem.category problem) cat
  | _, _ => categoryMap
  end.

(** [categoryBreakdown] of [finishTest], lines 247 to 255. *)
Definition categoryBreakdown (problems : list Problem.t) (answers : list SessionAnswer.t)
    : list CategoryScore.t :=
  let categoryMap :=
    foldl (breakdownStep problems answers) [] (seq 0 (length answers)) in
  map (λ entry,
         let stats := snd entry in
         CategoryScore.mk (fst entry) (tallyTotal stats) (tallyCorrect stats)
           (if 0 <? tallyTotal stats
            then Math_round (inject_Z (tallyTotalTimeMs stats) / inject_Z (tallyTotal stats))
            else 0))
      categoryMap.

(** [correctCount] and [totalQuestions] of the test result, lines 257 and 268,
    and the count of [handleFinish], line 180. *)
Definition correctCount (answers : list SessionAnswer.t) : Z :=
  Z.of_nat (length (List.filter answeredCorrectly answers)).

Definition totalQuestions (problems : list Problem.t) : Z :=
  Z.of_nat (length problems).

Definition unansweredCount (answers : list SessionAnswer.t) : Z :=
  Z.of_nat (length (List.filter
    (λ a, match SessionAnswer.selectedIndex a with None => true | Some _ => false end)
    answers)).

(** The sum of a column of the breakdown. *)
Definition sumColumn (column : CategoryScore.t → Z) (rows : list CategoryScore.t) : Z :=
  foldr (λ row acc, column row + acc) 0 rows.

(** What holds of the answer at an index and the problem there: the answer
    carries the id of the problem; while it is open it has no verdict and no
    time; once a choice is recorded, the verdict says whether the choice is
    the correct index of the problem. *)
Definition answerMatches (p : Problem.t) (a : SessionAnswer.t) : Prop :=
  SessionAnswer.problemId a = Problem.id p
  ∧ match SessionAnswer.selectedIndex a with
    | None => SessionAnswer.isCorrect a = None ∧ SessionAnswer.timeMs a = 0
    | Some index =>
        SessionAnswer.isCorrect a = Some (index =? Problem.correctIndex p)
    end.

(** The body of a turn of the second loop of [finishTest] for the problem
    and the answer at the index, and the sum of a field over the values of
    [categoryMap]. *)
Definition tallyAnswer (categoryMap : list (Category * CategoryTally))
    (pair : Problem.t * SessionAnswer.t) : list (Category * CategoryTally) :=
  let problem := fst pair in
  let answer := snd pair in
  let cat :=
    default (mkCategoryTally 0 0 0) (JsMap.get categoryMap (Problem.category problem)) in
  let cat := mkCategoryTally (tallyTotal cat + 1) (tallyCorrect cat) (tallyTotalTimeMs cat) in
  let cat :=
    if answeredCorrectly answer
    then mkCategoryTally (tallyTotal cat) (tallyCorrect cat + 1) (tallyTotalTimeMs cat)
    else cat in
  let cat :=
    mkCategoryTally (tallyTotal cat) (tallyCorrect cat)
      (tallyTotalTimeMs cat + SessionAnswer.timeMs answer) in
  JsMap.set categoryMap (Problem.category problem) cat.

Definition sumTally (field : CategoryTally → Z) (categoryMap : list (Category * CategoryTally))
    : Z :=
  foldr (λ entry acc, field (snd entry) + acc) 0 categoryMap.

(** The row that [finishTest] makes of an entry of [categoryMap]. *)
Definition scoreRow (entry : Category * CategoryTally) : CategoryScore.t :=
  let stats := snd entry in
  CategoryScore.mk (fst entry) (tallyTotal stats) (tallyCorrect stats)
    (if 0 <? tallyTotal stats
     then Math_round (inject_Z (tallyTotalTimeMs stats) / inject_Z (tallyTotal stats))
     else 0).

Section Program.

(** The environment: [Date_addDays t n] is the time value of a [Date] of time
    value [t] after [setDate(getDate() + n)]; [Date_toISOString] is
    [toISOString] of a valid date; [Date_parse s] is the time value of
    [new Date(s)], [None] when the date is invalid (its time value is NaN, and
    every comparison with it is false); [localeCompare a b] is
    [a.localeCompare(b)]. *)
Variable Date_addDays : Z → Z → Z.
Variable Date_toISOString : Z → string.
Variable Date_parse : string → option Z.
Variable localeCompare : string → string → Z.

(** ** [src/logic/reviewScheduler.ts] *)

(** [now] is the time value of [new Date()]. Where the table has no entry at
    [intervalIndex], [intervalDays] is [undefined], [getDate() + undefined] is
    NaN, [setDate(NaN)] makes the date invalid, and [toISOString] of an
    invalid date throws a RangeError. *)
Definition computeNextReview (now : Z) (problemId : string) (isCorrect : bool)
    (currentItem : option ReviewQueueItem.t) : Outcome ReviewQueueItem.t :=
  let currentStage :=
    match currentItem with
    | Some item => ReviewQueueItem.stage item
    | None => 0
    end in
  let newStage :=
    if isCorrect then currentStage + 1 else Z.max (currentStage - 1) 0 in
  let intervalIndex :=
    Z.min newStage (Z.of_nat (length REVIEW_INTERVALS_DAYS) - 1) in
  match Array_get REVIEW_INTERVALS_DAYS intervalIndex with
  | Some intervalDays =>
      let nextReview := Date_addDays now intervalDays in
      Returns (ReviewQueueItem.mk problemId (Date_toISOString nextReview) newStage)
  | None => Throws (RangeError "Invalid time value")
  end.

Definition isReviewDue (now : Z) (item : ReviewQueueItem.t) : bool :=
  match Date_parse (ReviewQueueItem.nextReviewAt item) with
  | Some t => t <=? now
  | None => false
  end.

(** [getIntervalLabel]. Where the table has no entry at [index], [days] is
    [undefined]: every comparison with it is false, and the template of the
    last line prints it as "undefined". *)
Definition getIntervalLabel (stage : Z) : string :=
  let index := Z.min stage (Z.of_nat (length REVIEW_INTERVALS_DAYS) - 1) in
  match Array_get REVIEW_INTERVALS_DAYS index with
  | Some days =>
      if days =? 1 then "明日"
      else if days <? 7 then pretty days +:+ "日後"
      else if days =? 7 then "1週間後"
      else if days =? 14 then "2週間後"
      else pretty days +:+ "日後"
  | None => "undefined" +:+ "日後"
  end.

(** The answers to one question, one after the other: every call gets the
    entry that the call before returned, and the first one gets [start]. Each
    answer comes with the time at which it is given. The result lists the
    entries in the order in which they were returned. *)
Fixpoint answerAll (problemId : string) (answers : list (Z * bool))
    (start : option ReviewQueueItem.t) : Outcome (list ReviewQueueItem.t) :=
  match answers with
  | [] => Returns []
  | (now, isCorrect) :: rest =>
      match computeNextReview now problemId isCorrect start with
      | Throws e => Throws e
      | Returns item =>
          match answerAll problemId rest (Some item) with
          | Throws e => Throws e
          | Returns items => Returns (item :: items)
          end
      end
  end.

(** ** [src/logic/sessionPicker.ts] *)

Definition dueSetOf (dueReviews : list ReviewQueueItem.t) : gset string :=
  list_to_set (map ReviewQueueItem.problemId dueReviews).

(** [dueReviews.find((r) => r.problemId === p.id)?.nextReviewAt ?? ""] *)
Definition nextReviewAtOf (dueReviews : list ReviewQueueItem.t) (p : Problem.t) : string :=
  match List.find (λ r, bool_decide (ReviewQueueItem.problemId r = Problem.id p)) dueReviews with
  | Some r => ReviewQueueItem.nextReviewAt r
  | None => ""
  end.

(** [latestAttempts.get(p.id)?.timeMs ?? 0] *)
Definition timeMsOf (latestAttempts : list (string * Attempt.t)) (p : Problem.t) : Z :=
  match JsMap.get latestAttempts (Problem.id p) with
  | Some a => Attempt.timeMs a
  | None => 0
  end.

(** [latestAttempts.get(p.id)?.answeredAt ?? ""] *)
Definition answeredAtOf (latestAttempts : list (string * Attempt.t)) (p : Problem.t) : string :=
  match JsMap.get latestAttempts (Problem.id p) with
  | Some a => Attempt.answeredAt a
  | None => ""
  end.

(** Pool 1 of [pickQuickSession]. *)
Definition duePool (allProblems : list Problem.t)
    (dueReviews : list ReviewQueueItem.t) : list Problem.t :=
  let dueSet := dueSetOf dueReviews in
  Array_sort
    (λ a b, localeCompare (nextReviewAtOf dueReviews a) (nextReviewAtOf dueReviews b) <=? 0)
    (List.filter (λ p, bool_decide (Problem.id p ∈ dueSet)) allProblems).

(** Pool 2 of [pickQuickSession]. *)
Definition slowPool (allProblems : list Problem.t)
    (latestAttempts : list (string * Attempt.t)) : list Problem.t :=
  Array_sort
    (λ a b, timeMsOf latestAttempts b - timeMsOf latestAttempts a <=? 0)
    (List.filter
       (λ p, match JsMap.get latestAttempts (Problem.id p) with
             | None => false
             | Some a =>
                 Attempt.isCorrect a
                 && (targetTimeForCategory (Problem.category p) * 1000 <? Attempt.timeMs a)
             end)
       allProblems).

(** Pool 3 of [pickQuickSession]. *)
Definition wrongRecentPool (allProblems : list Problem.t)
    (latestAttempts : list (string * Attempt.t)) : list Problem.t :=
  Array_sort
    (λ a b, localeCompare (answeredAtOf latestAttempts b) (answeredAtOf latestAttempts a) <=? 0)
    (List.filter
       (λ p, match JsMap.get latestAttempts (Problem.id p) with
             | None => false
             | Some a => negb (Attempt.isCorrect a)
             end)
       allProblems).

(** Pool 4 of [pickQuickSession]. *)
Definition unseenPool (allProblems : list Problem.t)
    (latestAttempts : list (string * Attempt.t)) : list Problem.t :=
  Array_sort
    (λ a b, Difficulty_num (Problem.difficulty a) - Difficulty_num (Problem.difficulty b) <=? 0)
    (List.filter (λ p, negb (JsMap.has latestAttempts (Problem.id p))) allProblems).

(** The variables of the two loops of [pickQuickSession]. *)
Record PickState := mkPickState {
  picked : list Problem.t;
  pickedSet : gset string;
  estimatedTime : Z
}.

(** The inner loop over one pool: [inl] is the [return picked] inside it,
    [inr] the state with which the loop is left. *)
Fixpoint pickFromPool (targetSeconds : Z) (pool : list Problem.t) (st : PickState)
    : list Problem.t + PickState :=
  match pool with
  | [] => inr st
  | p :: rest =>
      if bool_decide (Problem.id p ∈ pickedSet st) then pickFromPool targetSeconds rest st
      else
        let st' :=
          mkPickState (picked st ++ [p]) ({[Problem.id p]} ∪ pickedSet st)
            (estimatedTime st + estimateSolveSeconds (Problem.category p)) in
        if targetSeconds <=? estimatedTime st' then inl (picked st')
        else pickFromPool targetSeconds rest st'
  end.

(** The outer loop over the pools, and the [return picked] after it. *)
Fixpoint pickFromPools (targetSeconds : Z) (pools : list (list Problem.t)) (st : PickState)
    : list Problem.t :=
  match pools with
  | [] => picked st
  | pool :: rest =>
      match pickFromPool targetSeconds pool st with
      | inl result => result
      | inr st' => pickFromPools targetSeconds rest st'
      end
  end.

Definition pickQuickSession (targetSeconds : Z) (allProblems : list Problem.t)
    (latestAttempts : list (string * Attempt.t))
    (dueReviews : list ReviewQueueItem.t) : list Problem.t :=
  let due := duePool allProblems dueReviews in
  let slow := slowPool allProblems latestAttempts in
  let wrongRecent := wrongRecentPool allProblems latestAttempts in
  let unseen := unseenPool allProblems latestAttempts in
  let pools := [due; slow; wrongRecent; unseen] in
  pickFromPools targetSeconds pools (mkPickState [] ∅ 0).

(** The comparator of [pickReviewSession]. *)
Definition reviewCompare (dueSet : gset string)
    (latestAttempts : list (string * Attempt.t)) (a b : Problem.t) : Z :=
  let aDue := if bool_decide (Problem.id a ∈ dueSet) then 0 else 1 in
  let bDue := if bool_decide (Problem.id b ∈ dueSet) then 0 else 1 in
  if negb (aDue =? bDue) then aDue - bDue
  else
    let aDate := answeredAtOf latestAttempts a in
    let bDate := answeredAtOf latestAttempts b in
    localeCompare aDate bDate.

(** [candidates] of [pickReviewSession]. *)
Definition reviewCandidates (allProblems : list Problem.t)
    (latestAttempts : list (string * Attempt.t))
    (dueReviews : list ReviewQueueItem.t) : list Problem.t :=
  let dueSet := dueSetOf dueReviews in
  Array_sort
    (λ a b, reviewCompare dueSet latestAttempts a b <=? 0)
    (List.filter
       (λ p, bool_decide (Problem.id p ∈ dueSet)
             || match JsMap.get latestAttempts (Problem.id p) with
                | None => false
                | Some a => negb (Attempt.isCorrect a)
                end)
       allProblems).

(** [maxCount] is [None] when the caller leaves the argument out. *)
Definition pickReviewSession (allProblems : list Problem.t)
    (latestAttempts : list (string * Attempt.t))
    (dueReviews : list ReviewQueueItem.t) (maxCount : option Z) : list Problem.t :=
  let maxCount := default 10 maxCount in
  let candidates := reviewCandidates allProblems latestAttempts dueReviews in
  Array_slice0 candidates maxCount.

Definition pickSpeedSession (allProblems : list Problem.t)
    (latestAttempts : list (string * Attempt.t)) (maxCount : option Z) : list Problem.t :=
  let maxCount := default 10 maxCount in
  Array_slice0
    (Array_sort
       (λ a b,
          let aTime := timeMsOf latestAttempts a in
          let bTime := timeMsOf latestAttempts b in
          bTime - aTime <=? 0)
       (List.filter
          (λ p, match JsMap.get latestAttempts (Problem.id p) with
                | None => false
                | Some a =>
                    Attempt.isCorrect a
                    && (targetTimeForCategory (Problem.category p) * 1000 <? Attempt.timeMs a)
                end)
          allProblems))
    maxCount.

(** An element of [scored] in [pickWeaknessTest]. *)
Record Scored := mkScored {
  problem : Problem.t;
  score : Q
}.

(** The body of the [map] callback of [pickWeaknessTest], for the attempt [a]
    of the problem [p]. *)
Definition scoreAttempt (p : Problem.t) (a : Attempt.t) : Scored :=
  let score := 0%Q in
  let score := if negb (Attempt.isCorrect a) then (score + 10)%Q else score in
  let overTime := Attempt.timeMs a - targetTimeForCategory (Problem.category p) * 1000 in
  let score := if 0 <? overTime then (score + inject_Z overTime / 1000)%Q else score in
  mkScored p score.

(** [scored] of [pickWeaknessTest]. The callback of [map] reads
    [latestAttempts.get(p.id)!]: the filter before it keeps only the problems
    whose id the map has, so the [None] branch is never taken
    ([scoredList_attempted]). *)
Definition scoredList (allProblems : list Problem.t)
    (latestAttempts : list (string * Attempt.t)) : list Scored :=
  Array_sort
    (λ a b, Qle_bool (score b - score a) 0)
    (map
       (λ p, match JsMap.get latestAttempts (Problem.id p) with
             | Some a => scoreAttempt p a
             | None => mkScored p 0
             end)
       (List.filter (λ p, JsMap.has latestAttempts (Problem.id p)) allProblems)).

Definition pickWeaknessTest (allProblems : list Problem.t)
    (latestAttempts : list (string * Attempt.t)) (count : option Z) : list Problem.t :=
  let count := default 20 count in
  let scored := scoredList allProblems latestAttempts in
  map problem (Array_slice0 scored count).

Inductive RecommendationType := review | speed | category_weak | drill.

Record Recommendation := mkRecommendation {
  title : string;
  reason : string;
  type : RecommendationType;
  estimatedMinutes : Z;
  category : option Category
}.

(** A value of [categoryAccuracy] in [generateRecommendations]. *)
Record AccuracyEntry := mkAccuracyEntry {
  correct : Z;
  total : Z
}.

(** One turn of the loop over [latestAttempts]. *)
Definition tallyAttempt (allProblems : list Problem.t)
    (categoryAccuracy : list (Category * AccuracyEntry))
    (kv : string * Attempt.t) : list (Category * AccuracyEntry) :=
  let attempt := snd kv in
  match List.find (λ p, bool_decide (Problem.id p = Attempt.problemId attempt)) allProblems with
  | None => categoryAccuracy
  | Some problem =>
      let entry :=
        default (mkAccuracyEntry 0 0) (JsMap.get categoryAccuracy (Problem.category problem)) in
      let entry := mkAccuracyEntry (correct entry) (total entry + 1) in
      let entry :=
        if Attempt.isCorrect attempt then mkAccuracyEntry (correct entry + 1) (total entry)
        else entry in
      JsMap.set categoryAccuracy (Problem.category problem) entry
  end.

(** One turn of the loop over [categoryAccuracy]. *)
Definition worseCategory (worstCategory : option (Category * Q))
    (kv : Category * AccuracyEntry) : option (Category * Q) :=
  let stats := snd kv in
  if total stats <? 3 then worstCategory
  else
    let accuracy := (inject_Z (correct stats) / inject_Z (total stats))%Q in
    match worstCategory with
    | None => Some (fst kv, accuracy)
    | Some w => if Qlt_bool accuracy (snd w) then Some (fst kv, accuracy) else worstCategory
    end.

Definition catInfoOf (c : Category) : string :=
  match c with
  | table => "表"
  | bar => "棒グラフ"
  | pie => "円グラフ"
  | composite => "複合"
  end.

(** The first card. Both [new Date()] of the filter callback read the clock
    in the same call; one time value [now] stands for them. *)
Definition reviewCards (now : Z) (dueReviews : list ReviewQueueItem.t) : list Recommendation :=
  let dueCount :=
    Z.of_nat (length (List.filter
      (λ r, match Date_parse (ReviewQueueItem.nextReviewAt r) with
            | Some t => t <=? now
            | None => false
            end)
      dueReviews)) in
  if 0 <? dueCount then
    [ mkRecommendation
        ("復習ドリル " +:+ pretty (Z.min dueCount 5) +:+ "問")
        (pretty dueCount +:+ "問が復習期限です")
        review
        (Math_ceil (inject_Z (dueCount * 50) / 60))
        None ]
  else [].

(** The second card. *)
Definition speedCards (allProblems : list Problem.t)
    (latestAttempts : list (string * Attempt.t)) : list Recommendation :=
  let slowCount :=
    Z.of_nat (length (List.filter
      (λ p, match JsMap.get latestAttempts (Problem.id p) with
            | None => false
            | Some a =>
                Attempt.isCorrect a
                && (targetTimeForCategory (Problem.category p) * 1000 <? Attempt.timeMs a)
            end)
      allProblems)) in
  if 0 <? slowCount then
    [ mkRecommendation
        ("スピード強化 " +:+ pretty (Z.min slowCount 3) +:+ "問")
        "正解だが目標時間を超過"
        speed
        (Math_ceil (inject_Z (Z.min slowCount 3 * 45) / 60))
        None ]
  else [].

(** The third card. *)
Definition categoryCards (allProblems : list Problem.t)
    (latestAttempts : list (string * Attempt.t)) : list Recommendation :=
  let categoryAccuracy := foldl (tallyAttempt allProblems) [] latestAttempts in
  let worstCategory := foldl worseCategory None categoryAccuracy in
  match worstCategory with
  | None => []
  | Some w =>
      if Qlt_bool (snd w) (7 # 10) then
        let catInfo := catInfoOf (fst w) in
        [ mkRecommendation
            (catInfo +:+ "カテゴリ弱点 3問")
            (catInfo +:+ "の正答率が" +:+ pretty (Math_round (snd w * 100)) +:+ "%")
            category_weak
            3
            (Some (fst w)) ]
      else []
  end.

(** [recommendations] after the three [push]es, in their order. *)
Definition generateRecommendations (now : Z) (allProblems : list Problem.t)
    (latestAttempts : list (string * Attempt.t))
    (dueReviews : list ReviewQueueItem.t) : list Recommendation :=
  reviewCards now dueReviews
  ++ speedCards allProblems latestAttempts
  ++ categoryCards allProblems latestAttempts.

(** ** The callers: the map of latest attempts

    The screens build [latestAttempts] from the attempts that the store
    returns, the most recent first ([src/db/sampleProblems.ts], lines 701 to
    706; the same loop stands in [app/(tabs)/index.tsx], lines 66 to 71, and
    in [app/(tabs)/learn.tsx], lines 1079 to 1084):

      for (const a of attempts)
        if (!latestAttempts.has(a.problemId)) latestAttempts.set(a.problemId, a); *)
Definition latestAttemptsStep (latestAttempts : list (string * Attempt.t))
    (a : Attempt.t) : list (string * Attempt.t) :=
  if negb (JsMap.has latestAttempts (Attempt.problemId a))
  then JsMap.set latestAttempts (Attempt.problemId a) a
  else latestAttempts.

Definition buildLatestAttempts (attempts : list Attempt.t) : list (string * Attempt.t) :=
  foldl latestAttemptsStep [] attempts.

(** The guard of [startWeaknessTest] ([app/(tabs)/learn.tsx], lines 1077 to
    1096): with fewer than 5 problems attempted it shows an alert and starts
    nothing ([None]); otherwise it asks [pickWeaknessTest] for 10 problems
    and passes their ids on. *)
Definition startWeaknessTest (allProblems : list Problem.t)
    (attempts : list Attempt.t) : option (list string) :=
  let latestAttempts := buildLatestAttempts attempts in
  if Z.of_nat (length latestAttempts) <? 5 then None
  else
    let weakProblems := pickWeaknessTest allProblems latestAttempts (Some 10) in
    Some (map Problem.id weakProblems).







(** ** Invariants and orders that the properties are stated with *)

(** The estimated time of a list of problems, as [pickQuickSession] adds it up. *)
Definition estimateTotal (l : list Problem.t) : Z :=
  foldr (λ p acc, estimateSolveSeconds (Problem.category p) + acc) 0 l.

(** The four pools of [pickQuickSession] laid end to end, every problem
    dropped whose id has occurred before. *)
Definition quickCandidates (allProblems : list Problem.t)
    (latestAttempts : list (string * Attempt.t))
    (dueReviews : list ReviewQueueItem.t) : list Problem.t :=
  firstOccurrences ∅
    (duePool allProblems dueReviews
     ++ slowPool allProblems latestAttempts
     ++ wrongRecentPool allProblems latestAttempts
     ++ unseenPool allProblems latestAttempts).


(** What the two loops keep true: the ids of [picked] are pairwise different,
    and [pickedSet] holds these ids. *)
Definition PickInv (st : PickState) : Prop :=
  NoDup (map Problem.id (picked st))
  ∧ ∀ x, x ∈ pickedSet st ↔ x ∈ map Problem.id (picked st).

(** A problem is due for review when the list of due reviews has an entry
    for it; its latest attempt is wrong when the map has an attempt for it
    that is not correct. *)
Definition isDueProblem (dueReviews : list ReviewQueueItem.t) (p : Problem.t) : Prop :=
  ∃ r, r ∈ dueReviews ∧ ReviewQueueItem.problemId r = Problem.id p.

Definition latestWrong (latestAttempts : list (string * Attempt.t)) (p : Problem.t) : Prop :=
  ∃ a, JsMap.get latestAttempts (Problem.id p) = Some a ∧ Attempt.isCorrect a = false.

(** The timestamp of the latest attempt of a problem: the [answeredAt] of
    the attempt that the map has for it, and the empty string when the map
    has none. *)
Definition latestAnsweredAt (latestAttempts : list (string * Attempt.t))
    (p : Problem.t) (t : string) : Prop :=
  (∃ a, JsMap.get latestAttempts (Problem.id p) = Some a ∧ t = Attempt.answeredAt a)
  ∨ (JsMap.get latestAttempts (Problem.id p) = None ∧ t = "").

(** The order of the review session: a due problem before one that is not
    due, and otherwise the one with the older latest attempt first. *)
Definition reviewBefore (dueReviews : list ReviewQueueItem.t)
    (latestAttempts : list (string * Attempt.t)) (p q : Problem.t) : Prop :=
  (isDueProblem dueReviews p ∧ ¬ isDueProblem dueReviews q)
  ∨ ((isDueProblem dueReviews p ↔ isDueProblem dueReviews q)
     ∧ ∀ s t, latestAnsweredAt latestAttempts p s → latestAnsweredAt latestAttempts q t →
              localeCompare s t ≤ 0).

(** How a run of the two loops ends: with the [return] inside them, right
    after the problem that brings the estimate to the target, or with every
    pool walked to its end. *)
Definition StoppedAtTarget (targetSeconds : Z) (result : list Problem.t) : Prop :=
  ∃ init p,
    result = init ++ [p]
    ∧ (init = [] ∨ estimateTotal init < targetSeconds)
    ∧ targetSeconds ≤ estimateTotal result.

(** A problem qualifies for a quick session when it is due, or its latest
    attempt is correct but over the target time, or its latest attempt is
    wrong, or it has no attempt. *)
Definition qualifies (latestAttempts : list (string * Attempt.t))
    (dueReviews : list ReviewQueueItem.t) (p : Problem.t) : Prop :=
  isDueProblem dueReviews p
  ∨ (∃ a, JsMap.get latestAttempts (Problem.id p) = Some a
          ∧ Attempt.isCorrect a = true
          ∧ targetTimeForCategory (Problem.category p) * 1000 < Attempt.timeMs a)
  ∨ latestWrong latestAttempts p
  ∨ JsMap.get latestAttempts (Problem.id p) = None.

(** The attempts of the map whose problem [generateRecommendations] finds in
    the catalog under a category, and how many there are and how many of them
    are correct. *)
Definition categoryOfAttempt (allProblems : list Problem.t) (a : Attempt.t)
    : option Category :=
  Problem.category
    <$> List.find (λ p, bool_decide (Problem.id p = Attempt.problemId a)) allProblems.

Definition attemptsInCategory (allProblems : list Problem.t)
    (latestAttempts : list (string * Attempt.t)) (c : Category) : list Attempt.t :=
  List.filter (λ a, bool_decide (categoryOfAttempt allProblems a = Some c))
    (map snd latestAttempts).

Definition categoryTotal (allProblems : list Problem.t)
    (latestAttempts : list (string * Attempt.t)) (c : Category) : Z :=
  Z.of_nat (length (attemptsInCategory allProblems latestAttempts c)).

Definition categoryCorrect (allProblems : list Problem.t)
    (latestAttempts : list (string * Attempt.t)) (c : Category) : Z :=
  Z.of_nat (length (List.filter Attempt.isCorrect
                      (attemptsInCategory allProblems latestAttempts c))).

(** [stats.correct / stats.total] *)
Definition accuracyOf (stats : AccuracyEntry) : Q :=
  (inject_Z (correct stats) / inject_Z (total stats))%Q.

(** * Properties *)

(** ** Arrays *)

Section ArrayFacts.
Context {A : Type}.
Implicit Types (l : list A) (x : A).

Lemma Array_slice0_nat l (n : nat) : Array_slice0 l (Z.of_nat n) = take n l.
Proof.
  unfold Array_slice0.
  destruct (Z.ltb_spec (Z.of_nat n) 0) as [Hneg|_]; [lia|].
  by rewrite Nat2Z.id.
Qed.

Lemma Array_slice0_length l (n : nat) :
  (length (Array_slice0 l (Z.of_nat n)) ≤ n)%nat.
Proof. rewrite Array_slice0_nat, length_take. lia. Qed.

Lemma Array_sort_insert_perm (f : A → A → bool) x l :
  Array_sort_insert f x l ≡ₚ x :: l.
Proof.
  induction l as [|y l IH]; simpl; [done|].
  destruct (f x y); [done|].
  rewrite IH. apply Permutation_swap.
Qed.

Lemma Array_sort_perm (f : A → A → bool) l : Array_sort f l ≡ₚ l.
Proof.
  induction l as [|x l IH]; simpl; [done|].
  by rewrite Array_sort_insert_perm, IH.
Qed.

Lemma Array_sort_elem_of (f : A → A → bool) l x : x ∈ Array_sort f l ↔ x ∈ l.
Proof. by rewrite Array_sort_perm. Qed.

(** A comparator that is total and transitive yields a sorted array. *)
Section Sorted.
Variable f : A → A → bool.
Hypothesis f_total : ∀ x y, f x y = false → f y x = true.
Hypothesis f_trans : ∀ x y z, f x y = true → f y z = true → f x z = true.

Lemma Array_sort_insert_sorted x l :
  StronglySorted (λ a b, f a b = true) l →
  StronglySorted (λ a b, f a b = true) (Array_sort_insert f x l).
Proof.
  induction 1 as [|y l Hl IH Hy]; simpl.
  - repeat constructor.
  - destruct (f x y) eqn:Hxy.
    + constructor; [by constructor|].
      constructor; [done|].
      eapply Forall_impl; [exact Hy|]. intros z Hz. by eapply f_trans.
    + constructor; [done|].
      rewrite Array_sort_insert_perm. constructor; [by apply f_total | done].
Qed.

Lemma Array_sort_sorted l : StronglySorted (λ a b, f a b = true) (Array_sort f l).
Proof.
  induction l as [|x l IH]; simpl; [constructor|].
  by apply Array_sort_insert_sorted.
Qed.

End Sorted.

Lemma StronglySorted_take (R : A → A → Prop) (n : nat) l :
  StronglySorted R l → StronglySorted R (take n l).
Proof.
  intros Hl. rewrite <- (take_drop n l) in Hl.
  by apply StronglySorted_app_1_l in Hl.
Qed.

(** In a sorted array, an element is related to every one after it. *)
Lemma StronglySorted_lookup (R : A → A → Prop) l (i j : nat) x y :
  StronglySorted R l → (i < j)%nat → l !! i = Some x → l !! j = Some y → R x y.
Proof.
  intros Hl. revert i j.
  induction Hl as [|z l Hl IH Hz]; intros i j Hij Hi Hj; [done|].
  destruct j as [|j]; [lia|]. simpl in Hj.
  destruct i as [|i]; simpl in Hi.
  - injection Hi as <-. rewrite Forall_forall in Hz.
    apply Hz. by eapply list_elem_of_lookup_2.
  - apply (IH i j); [lia|done..].
Qed.

End ArrayFacts.

(** ** The category table *)

Lemma CATEGORY_MAP_lookup (c : Category) :
  CATEGORY_MAP !! c = List.find (λ i, bool_decide (CategoryInfo.id i = c)) CATEGORIES.
Proof. destruct c; vm_compute; reflexivity. Qed.

Lemma targetTimeForCategory_eq (c : Category) :
  targetTimeForCategory c
  = match c with table => 55 | bar => 45 | pie => 40 | composite => 55 end.
Proof. unfold targetTimeForCategory. rewrite CATEGORY_MAP_lookup. by destruct c. Qed.

Lemma estimateSolveSeconds_eq (c : Category) :
  estimateSolveSeconds c
  = match c with table => 55 | bar => 45 | pie => 40 | composite => 55 end.
Proof. unfold estimateSolveSeconds. rewrite CATEGORY_MAP_lookup. by destruct c. Qed.

(** C10. For each of the four categories the category map has an entry, so
    the fallback of 50 seconds is not taken: [targetTimeForCategory] returns
    55 for table, 45 for bar, 40 for pie and 55 for composite, and
    [estimateSolveSeconds] returns the same number. *)
Theorem targetTimeForCategory_catalog (c : Category) :
  is_Some (CATEGORY_MAP !! c)
  ∧ targetTimeForCategory c
    = match c with table => 55 | bar => 45 | pie => 40 | composite => 55 end
  ∧ estimateSolveSeconds c = targetTimeForCategory c
  ∧ targetTimeForCategory table ≠ 50.
Proof.
  unfold targetTimeForCategory, estimateSolveSeconds.
  rewrite !CATEGORY_MAP_lookup.
  destruct c; simpl; (split; [by eexists|]); repeat split; done.
Qed.

(** ** The review scheduler *)

Lemma REVIEW_INTERVALS_DAYS_get (i : Z) :
  0 ≤ i →
  Array_get REVIEW_INTERVALS_DAYS (Z.min i (Z.of_nat (length REVIEW_INTERVALS_DAYS) - 1))
  = Some (if i =? 0 then 1 else if i =? 1 then 3 else if i =? 2 then 7
          else if i =? 3 then 14 else 30).
Proof.
  intros Hi. unfold Array_get.
  change (Z.of_nat (length REVIEW_INTERVALS_DAYS) - 1) with 4.
  destruct (Z.ltb_spec (Z.min i 4) 0) as [Hneg|_]; [lia|].
  destruct (Z.eqb_spec i 0) as [->|H0]; [done|].
  destruct (Z.eqb_spec i 1) as [->|H1]; [done|].
  destruct (Z.eqb_spec i 2) as [->|H2]; [done|].
  destruct (Z.eqb_spec i 3) as [->|H3]; [done|].
  replace (Z.min i 4) with 4 by lia. done.
Qed.

Lemma REVIEW_INTERVALS_DAYS_get_neg (i : Z) :
  i < 0 →
  Array_get REVIEW_INTERVALS_DAYS (Z.min i (Z.of_nat (length REVIEW_INTERVALS_DAYS) - 1))
  = None.
Proof.
  intros Hi. unfold Array_get.
  change (Z.of_nat (length REVIEW_INTERVALS_DAYS) - 1) with 4.
  destruct (Z.ltb_spec (Z.min i 4) 0) as [_|Hge]; [done|lia].
Qed.

(** What a call does, by the sign of the new stage. *)
Lemma computeNextReview_returns now problemId isCorrect currentItem :
  0 ≤ stageAfter (stageOf currentItem) isCorrect →
  ∃ intervalDays,
    Array_get REVIEW_INTERVALS_DAYS
      (Z.min (stageAfter (stageOf currentItem) isCorrect) 4) = Some intervalDays
    ∧ computeNextReview now problemId isCorrect currentItem
      = Returns (ReviewQueueItem.mk problemId
                   (Date_toISOString (Date_addDays now intervalDays))
                   (stageAfter (stageOf currentItem) isCorrect)).
Proof.
  intros Hs. eexists. split.
  - apply (REVIEW_INTERVALS_DAYS_get _ Hs).
  - unfold computeNextReview. fold (stageOf currentItem).
    fold (stageAfter (stageOf currentItem) isCorrect).
    by rewrite (REVIEW_INTERVALS_DAYS_get _ Hs).
Qed.

Lemma computeNextReview_throws now problemId isCorrect currentItem :
  stageAfter (stageOf currentItem) isCorrect < 0 →
  computeNextReview now problemId isCorrect currentItem
  = Throws (RangeError "Invalid time value").
Proof.
  intros Hs. unfold computeNextReview. fold (stageOf currentItem).
  fold (stageAfter (stageOf currentItem) isCorrect).
  by rewrite (REVIEW_INTERVALS_DAYS_get_neg _ Hs).
Qed.

Lemma stageAfter_nonneg stage isCorrect : 0 ≤ stage → 0 ≤ stageAfter stage isCorrect.
Proof. unfold stageAfter. destruct isCorrect; lia. Qed.

Lemma answerAll_walk problemId answers start :
  0 ≤ stageOf start →
  ∃ items,
    answerAll problemId answers start = Returns items
    ∧ map ReviewQueueItem.stage items = stageWalk (stageOf start) (map snd answers)
    ∧ Forall (λ item, 0 ≤ ReviewQueueItem.stage item) items.
Proof.
  revert start. induction answers as [|[now isCorrect] answers IH]; intros start Hs.
  - exists []. by repeat split.
  - pose proof (stageAfter_nonneg _ isCorrect Hs) as Hs'.
    destruct (computeNextReview_returns now problemId isCorrect start Hs')
      as (d & _ & Hcall).
    simpl. rewrite Hcall.
    destruct (IH (Some (ReviewQueueItem.mk problemId
                          (Date_toISOString (Date_addDays now d))
                          (stageAfter (stageOf start) isCorrect))) Hs')
      as (items & -> & Hwalk & Hall).
    eexists. split; [done|]. split.
    + simpl. f_equal. exact Hwalk.
    + by constructor.
Qed.

(** C1. A call of [computeNextReview] either returns an entry, and then the
    stage of the entry is the current stage plus 1 after a correct answer and
    max(current stage - 1, 0) after an incorrect one, where an absent entry
    counts as stage 0; or it throws, which happens only for a correct answer
    at a current stage below -1. Starting from no entry, every sequence of
    answers to a question returns one entry per answer, the stages of these
    entries follow the stage walk, and none of them is negative. *)
Theorem computeNextReview_stage_walk :
  (∀ now problemId isCorrect currentItem,
     match computeNextReview now problemId isCorrect currentItem with
     | Returns item =>
         ReviewQueueItem.stage item
         = if isCorrect then stageOf currentItem + 1
           else Z.max (stageOf currentItem - 1) 0
     | Throws _ => isCorrect = true ∧ stageOf currentItem < -1
     end)
  ∧ (∀ now problemId isCorrect,
       ∃ item, computeNextReview now problemId isCorrect None = Returns item
               ∧ ReviewQueueItem.stage item = if isCorrect then 1 else 0)
  ∧ (∀ problemId answers,
       ∃ items,
         answerAll problemId answers None = Returns items
         ∧ length items = length answers
         ∧ map ReviewQueueItem.stage items = stageWalk 0 (map snd answers)
         ∧ Forall (λ item, 0 ≤ ReviewQueueItem.stage item) items).
Proof.
  split; [|split].
  - intros now problemId isCorrect currentItem.
    destruct (Z.lt_ge_cases (stageAfter (stageOf currentItem) isCorrect) 0) as [Hneg|Hpos].
    + rewrite (computeNextReview_throws _ _ _ _ Hneg).
      unfold stageAfter in Hneg. destruct isCorrect; [split; [done|lia] | lia].
    + destruct (computeNextReview_returns now problemId isCorrect currentItem Hpos)
        as (d & _ & ->).
      done.
  - intros now problemId isCorrect.
    destruct (computeNextReview_returns now problemId isCorrect None) as (d & _ & ->).
    + by destruct isCorrect.
    + eexists. split; [done|]. by destruct isCorrect.
  - intros problemId answers.
    destruct (answerAll_walk problemId answers None) as (items & Hrun & Hwalk & Hall); [done|].
    exists items. repeat split; try done.
    rewrite <- (length_map ReviewQueueItem.stage), Hwalk.
    clear. simpl. generalize 0. induction answers as [|[now isCorrect] answers IH]; intros s; [done|].
    simpl. by rewrite IH.
Qed.

(** C3. When the new stage is 4 or more, the call returns, and the next
    review is 30 days after [now]: the index into the table [1, 3, 7, 14, 30]
    is its last one, whatever the stage. *)
Theorem computeNextReview_interval_cap now problemId isCorrect currentItem :
  4 ≤ stageAfter (stageOf currentItem) isCorrect →
  last REVIEW_INTERVALS_DAYS = Some 30
  ∧ Array_get REVIEW_INTERVALS_DAYS
      (Z.min (stageAfter (stageOf currentItem) isCorrect)
             (Z.of_nat (length REVIEW_INTERVALS_DAYS) - 1)) = Some 30
  ∧ computeNextReview now problemId isCorrect currentItem
    = Returns (ReviewQueueItem.mk problemId
                 (Date_toISOString (Date_addDays now 30))
                 (stageAfter (stageOf currentItem) isCorrect)).
Proof.
  intros Hs.
  assert (Hget : Array_get REVIEW_INTERVALS_DAYS
            (Z.min (stageAfter (stageOf currentItem) isCorrect)
                   (Z.of_nat (length REVIEW_INTERVALS_DAYS) - 1)) = Some 30).
  { rewrite REVIEW_INTERVALS_DAYS_get by lia.
    generalize dependent (stageAfter (stageOf currentItem) isCorrect). intros s Hs.
    destruct (Z.eqb_spec s 0); [lia|]. destruct (Z.eqb_spec s 1); [lia|].
    destruct (Z.eqb_spec s 2); [lia|]. destruct (Z.eqb_spec s 3); [lia|]. done. }
  split; [reflexivity|]. split; [exact Hget|].
  unfold computeNextReview. fold (stageOf currentItem).
  fold (stageAfter (stageOf currentItem) isCorrect).
  by rewrite Hget.
Qed.

(** C4, as amended. For every question id and every time, for an incorrect
    answer at any integer stage, and for a correct answer with no entry or
    at a stage of -1 or more, [computeNextReview] returns an entry: the index
    into the interval table lies between 0 and 4, the table has an interval
    there, and the entry carries the question id, the new stage and the date
    that many days after [now]. *)
Theorem computeNextReview_total_from_minus_one now problemId isCorrect currentItem :
  isCorrect = false ∨ -1 ≤ stageOf currentItem →
  let newStage := stageAfter (stageOf currentItem) isCorrect in
  let intervalIndex := Z.min newStage (Z.of_nat (length REVIEW_INTERVALS_DAYS) - 1) in
  0 ≤ intervalIndex < Z.of_nat (length REVIEW_INTERVALS_DAYS)
  ∧ ∃ intervalDays,
      REVIEW_INTERVALS_DAYS !! Z.to_nat intervalIndex = Some intervalDays
      ∧ computeNextReview now problemId isCorrect currentItem
        = Returns (ReviewQueueItem.mk problemId
                     (Date_toISOString (Date_addDays now intervalDays)) newStage).
Proof.
  intros Hin newStage intervalIndex.
  assert (Hs : 0 ≤ newStage).
  { unfold newStage, stageAfter. destruct Hin as [->| ?]; [lia|]. destruct isCorrect; lia. }
  split; [unfold intervalIndex; simpl length; lia|].
  destruct (computeNextReview_returns now problemId isCorrect currentItem Hs)
    as (d & Hd & Hcall).
  exists d. split; [|exact Hcall].
  unfold Array_get in Hd. fold newStage in Hd.
  destruct (Z.ltb_spec (Z.min newStage 4) 0); [done|]. exact Hd.
Qed.

(** ** The quick session *)

Lemma PickInv_init : PickInv (mkPickState [] ∅ 0).
Proof. split; simpl; [constructor | set_solver]. Qed.

Lemma PickInv_push st p :
  PickInv st → Problem.id p ∉ pickedSet st →
  PickInv (mkPickState (picked st ++ [p]) ({[Problem.id p]} ∪ pickedSet st)
             (estimatedTime st + estimateSolveSeconds (Problem.category p))).
Proof.
  intros [Hnd Hset] Hnew. split; simpl.
  - rewrite map_app. apply NoDup_app. split; [done|]. split.
    + intros x Hx Hx'. simpl in Hx'. apply list_elem_of_singleton in Hx' as ->.
      by apply Hnew, Hset.
    + apply NoDup_singleton.
  - intros x. rewrite map_app, elem_of_app, elem_of_union, elem_of_singleton, Hset.
    simpl. rewrite list_elem_of_singleton. tauto.
Qed.

Lemma pickFromPool_inv targetSeconds pool st :
  PickInv st →
  match pickFromPool targetSeconds pool st with
  | inl result => NoDup (map Problem.id result)
  | inr st' => PickInv st'
  end.
Proof.
  revert st. induction pool as [|p pool IH]; intros st Hst; simpl; [done|].
  case_bool_decide as Hin; [by apply IH|].
  pose proof (PickInv_push st p Hst Hin) as Hst'.
  destruct (targetSeconds <=? _); [apply Hst' | by apply IH].
Qed.

Lemma pickFromPools_NoDup targetSeconds pools st :
  PickInv st → NoDup (map Problem.id (pickFromPools targetSeconds pools st)).
Proof.
  revert st. induction pools as [|pool pools IH]; intros st Hst; simpl; [apply Hst|].
  pose proof (pickFromPool_inv targetSeconds pool st Hst) as Hpool.
  destruct (pickFromPool targetSeconds pool st); [done | by apply IH].
Qed.

Lemma pickFromPool_first targetSeconds pool st rest :
  match pickFromPool targetSeconds pool st with
  | inl result =>
      result `prefix_of` picked st ++ firstOccurrences (pickedSet st) (pool ++ rest)
  | inr st' =>
      picked st' ++ firstOccurrences (pickedSet st') rest
      = picked st ++ firstOccurrences (pickedSet st) (pool ++ rest)
  end.
Proof.
  revert st. induction pool as [|p pool IH]; intros st; simpl; [done|].
  case_bool_decide as Hin; [apply IH|].
  set (st' := mkPickState _ _ _).
  destruct (targetSeconds <=? _).
  - unfold prefix.
    exists (firstOccurrences ({[Problem.id p]} ∪ pickedSet st) (pool ++ rest)).
    simpl. by rewrite <- (assoc_L (++)).
  - specialize (IH st'). destruct (pickFromPool targetSeconds pool st'); simpl in IH.
    + by rewrite <- (assoc_L (++)) in IH.
    + by rewrite <- (assoc_L (++)) in IH.
Qed.

Lemma pickFromPools_first targetSeconds pools st :
  pickFromPools targetSeconds pools st
  `prefix_of` picked st ++ firstOccurrences (pickedSet st) (concat pools).
Proof.
  revert st. induction pools as [|pool pools IH]; intros st; simpl.
  - by rewrite (right_id_L [] (++)).
  - pose proof (pickFromPool_first targetSeconds pool st (concat pools)) as Hpool.
    destruct (pickFromPool targetSeconds pool st) as [result|st']; [done|].
    rewrite <- Hpool. apply IH.
Qed.

(** C5. For every target time, catalog, map of latest attempts and list of
    due reviews, the ids of the problems that [pickQuickSession] returns are
    pairwise different. The result is a beginning of the four pools laid end
    to end with every problem dropped whose id has occurred before: a
    problem of several pools is taken from the first of them. *)
Theorem pickQuickSession_NoDup targetSeconds allProblems latestAttempts dueReviews :
  NoDup (map Problem.id
           (pickQuickSession targetSeconds allProblems latestAttempts dueReviews))
  ∧ pickQuickSession targetSeconds allProblems latestAttempts dueReviews
    `prefix_of`
      firstOccurrences ∅
        (duePool allProblems dueReviews
         ++ slowPool allProblems latestAttempts
         ++ wrongRecentPool allProblems latestAttempts
         ++ unseenPool allProblems latestAttempts).
Proof.
  unfold pickQuickSession. split.
  - apply pickFromPools_NoDup, PickInv_init.
  - etrans; [apply pickFromPools_first|].
    simpl. by rewrite (right_id_L [] (++)).
Qed.

(** C2, as amended. In the scenario of three problems A (table), B (bar)
    and C (pie), where the latest attempt of A is correct in 80 seconds, that
    of B is incorrect, C has none and no review is due, [pickQuickSession]
    with a target of 60 seconds returns A, then B: the pool of slow correct
    answers is walked before the pool of wrong ones, A costs 55 seconds, and
    B brings the estimate to 100. *)
Theorem pickQuickSession_scenario (A B C : Problem.t)
    (latestAttempts : list (string * Attempt.t)) (a b : Attempt.t) :
  Problem.category A = table →
  Problem.category B = bar →
  Problem.category C = pie →
  JsMap.get latestAttempts (Problem.id A) = Some a →
  Attempt.isCorrect a = true →
  Attempt.timeMs a = 80000 →
  JsMap.get latestAttempts (Problem.id B) = Some b →
  Attempt.isCorrect b = false →
  JsMap.get latestAttempts (Problem.id C) = None →
  pickQuickSession 60 [A; B; C] latestAttempts [] = [A; B].
Proof.
  intros HcA HcB HcC HA Ha Hta HB Hb HC.
  assert (HAB : Problem.id B ≠ Problem.id A) by congruence.
  assert (Hdue : duePool [A; B; C] [] = []).
  { unfold duePool, dueSetOf. simpl.
    by rewrite !bool_decide_eq_false_2 by set_solver. }
  assert (Hslow : slowPool [A; B; C] latestAttempts = [A]).
  { unfold slowPool. simpl.
    by rewrite HA, HB, HC, Ha, Hb, Hta, HcA, targetTimeForCategory_eq. }
  assert (Hwrong : wrongRecentPool [A; B; C] latestAttempts = [B]).
  { unfold wrongRecentPool. simpl. by rewrite HA, HB, HC, Ha, Hb. }
  unfold pickQuickSession. rewrite Hdue, Hslow, Hwrong. simpl.
  rewrite bool_decide_eq_false_2 by apply not_elem_of_empty. simpl.
  rewrite HcA, estimateSolveSeconds_eq. simpl.
  rewrite bool_decide_eq_false_2; simpl.
  - by rewrite HcB, estimateSolveSeconds_eq.
  - rewrite elem_of_union, elem_of_singleton, elem_of_empty. by intros [?|[]].
Qed.

(** ** Filters and sorted arrays *)

Lemma elem_of_List_filter {A} (f : A → bool) (l : list A) (x : A) :
  x ∈ List.filter f l ↔ x ∈ l ∧ f x = true.
Proof. rewrite !list_elem_of_In. apply filter_In. Qed.

Lemma List_filter_submseteq {A} (f : A → bool) (l : list A) : List.filter f l ⊆+ l.
Proof.
  induction l as [|x l IH]; simpl; [done|].
  destruct (f x); [by apply submseteq_skip | by apply submseteq_cons].
Qed.

Lemma List_filter_partition {A} (f : A → bool) (l : list A) :
  l ≡ₚ List.filter f l ++ List.filter (λ x, negb (f x)) l.
Proof.
  induction l as [|x l IH]; simpl; [done|].
  destruct (f x); simpl.
  - by rewrite <- IH.
  - by rewrite <- Permutation_middle, <- IH.
Qed.

Lemma StronglySorted_mono {A} (R1 R2 : A → A → Prop) (l : list A) :
  (∀ x y, R1 x y → R2 x y) → StronglySorted R1 l → StronglySorted R2 l.
Proof.
  intros HR. induction 1 as [|x l Hl IH Hx]; constructor; [done|].
  eapply Forall_impl; [exact Hx | apply HR].
Qed.

Lemma Array_slice0_take {A} (l : list A) (e : Z) : ∃ n : nat, Array_slice0 l e = take n l.
Proof. unfold Array_slice0. destruct (e <? 0); eauto. Qed.

(** ** The speed session *)

Lemma slowPool_sorted allProblems latestAttempts :
  StronglySorted (λ p q, timeMsOf latestAttempts q ≤ timeMsOf latestAttempts p)
    (slowPool allProblems latestAttempts).
Proof.
  unfold slowPool.
  eapply StronglySorted_mono; [|apply Array_sort_sorted].
  - intros p q Hpq. simpl in Hpq. lia.
  - intros p q Hpq. simpl in *. lia.
  - intros p q r Hpq Hqr. simpl in *. lia.
Qed.

(** C8. [pickSpeedSession] returns the beginning of the pool of slow correct
    answers that [pickQuickSession] builds from the same catalog and
    attempts: its first [n] problems for a count [n], its first 10 when the
    count is left out, and [slice(0, n)] of it for every integer. The pool
    holds the problems of the catalog whose latest attempt is correct with a
    time strictly over 1000 times the target time of the category, each as
    often as the catalog has it and no other. In the pool, and so in the
    result, a problem stands before every problem whose latest attempt, as
    the map has it, took less time. *)
Theorem pickSpeedSession_slowPool allProblems latestAttempts :
  (∀ n : nat,
     pickSpeedSession allProblems latestAttempts (Some (Z.of_nat n))
     = take n (slowPool allProblems latestAttempts))
  ∧ pickSpeedSession allProblems latestAttempts None
    = take 10 (slowPool allProblems latestAttempts)
  ∧ (∀ n : Z,
       pickSpeedSession allProblems latestAttempts (Some n)
       = Array_slice0 (slowPool allProblems latestAttempts) n)
  ∧ (∀ p,
       p ∈ slowPool allProblems latestAttempts
       ↔ p ∈ allProblems
         ∧ ∃ a, JsMap.get latestAttempts (Problem.id p) = Some a
                ∧ Attempt.isCorrect a = true
                ∧ targetTimeForCategory (Problem.category p) * 1000 < Attempt.timeMs a)
  ∧ slowPool allProblems latestAttempts ⊆+ allProblems
  ∧ (∃ rest,
       allProblems ≡ₚ slowPool allProblems latestAttempts ++ rest
       ∧ ∀ p a, p ∈ rest → JsMap.get latestAttempts (Problem.id p) = Some a →
                Attempt.isCorrect a = true →
                Attempt.timeMs a ≤ targetTimeForCategory (Problem.category p) * 1000)
  ∧ StronglySorted
      (λ p q, ∀ a b, JsMap.get latestAttempts (Problem.id p) = Some a →
                     JsMap.get latestAttempts (Problem.id q) = Some b →
                     Attempt.timeMs b ≤ Attempt.timeMs a)
      (slowPool allProblems latestAttempts)
  ∧ (∀ maxCount (i j : nat) p q a b,
       (i < j)%nat →
       pickSpeedSession allProblems latestAttempts maxCount !! i = Some p →
       pickSpeedSession allProblems latestAttempts maxCount !! j = Some q →
       JsMap.get latestAttempts (Problem.id p) = Some a →
       JsMap.get latestAttempts (Problem.id q) = Some b →
       Attempt.timeMs b ≤ Attempt.timeMs a).
Proof.
  assert (Hsorted : StronglySorted
            (λ p q, ∀ a b, JsMap.get latestAttempts (Problem.id p) = Some a →
                           JsMap.get latestAttempts (Problem.id q) = Some b →
                           Attempt.timeMs b ≤ Attempt.timeMs a)
            (slowPool allProblems latestAttempts)).
  { eapply StronglySorted_mono; [|apply slowPool_sorted].
    intros p q Hpq a b Ha Hb. simpl in Hpq. unfold timeMsOf in Hpq.
    by rewrite Ha, Hb in Hpq. }
  split; [|split; [|split; [|split; [|split; [|split; [|split]]]]]].
  - intros n. unfold pickSpeedSession. simpl. apply Array_slice0_nat.
  - reflexivity.
  - reflexivity.
  - intros p. unfold slowPool. rewrite Array_sort_elem_of, elem_of_List_filter.
    split; intros [Hp Hslow]; (split; [done|]).
    + destruct (JsMap.get latestAttempts (Problem.id p)) as [a|]; [|done].
      apply andb_true_iff in Hslow as [Hc Ht]. exists a. split; [done|]. split; [done|lia].
    + destruct Hslow as (a & -> & -> & Ht). simpl. lia.
  - unfold slowPool. rewrite Array_sort_perm. apply List_filter_submseteq.
  - eexists. split.
    + unfold slowPool. rewrite Array_sort_perm. apply List_filter_partition.
    + intros p a Hp Ha Hc. apply elem_of_List_filter in Hp as [_ Hp].
      rewrite Ha, Hc in Hp. simpl in Hp. apply negb_true_iff in Hp. lia.
  - exact Hsorted.
  - intros maxCount i j p q a b Hij Hi Hj Ha Hb.
    change (pickSpeedSession allProblems latestAttempts maxCount)
      with (Array_slice0 (slowPool allProblems latestAttempts) (default 10 maxCount))
      in Hi, Hj.
    destruct (Array_slice0_take (slowPool allProblems latestAttempts)
                (default 10 maxCount)) as [n Hn].
    rewrite Hn in Hi, Hj.
    apply lookup_take_Some in Hi as [Hi _]. apply lookup_take_Some in Hj as [Hj _].
    exact (StronglySorted_lookup _ _ i j p q Hsorted Hij Hi Hj a b Ha Hb).
Qed.

(** ** The weakness test *)

Lemma scoreAttempt_score p a :
  (score (scoreAttempt p a)
   == weaknessScore (Attempt.isCorrect a) (Attempt.timeMs a)
        (targetTimeForCategory (Problem.category p) * 1000))%Q.
Proof.
  unfold scoreAttempt, weaknessScore. simpl.
  set (overTime := Attempt.timeMs a - targetTimeForCategory (Problem.category p) * 1000).
  destruct (Z.ltb_spec 0 overTime) as [Hover|Hover].
  - rewrite Q.max_r; [by destruct (Attempt.isCorrect a)|].
    unfold Qle. simpl. lia.
  - rewrite Q.max_l; [destruct (Attempt.isCorrect a); simpl; ring|].
    unfold Qle. simpl. lia.
Qed.

Lemma weaknessScore_incorrect elapsedMs targetMs :
  (10 <= weaknessScore false elapsedMs targetMs)%Q.
Proof.
  unfold weaknessScore.
  pose proof (Q.le_max_l 0 (inject_Z (elapsedMs - targetMs) / 1000)). lra.
Qed.

Lemma weaknessScore_correct_under elapsedMs targetMs :
  elapsedMs - targetMs < 10000 →
  (weaknessScore true elapsedMs targetMs < 10)%Q.
Proof.
  intros Hover. unfold weaknessScore.
  assert (Qmax 0 (inject_Z (elapsedMs - targetMs) / 1000) < 10)%Q; [|lra].
  apply Q.max_lub_lt; [reflexivity|].
  unfold Qlt. simpl. lia.
Qed.

Lemma scoredList_elem allProblems latestAttempts s :
  s ∈ scoredList allProblems latestAttempts →
  problem s ∈ allProblems
  ∧ ∃ a, JsMap.get latestAttempts (Problem.id (problem s)) = Some a
         ∧ s = scoreAttempt (problem s) a.
Proof.
  unfold scoredList. rewrite Array_sort_elem_of, list_elem_of_fmap.
  intros (p & -> & Hp). apply elem_of_List_filter in Hp as [Hp Hhas].
  unfold JsMap.has in Hhas.
  destruct (JsMap.get latestAttempts (Problem.id p)) as [a|] eqn:Hget; [|done].
  simpl. rewrite Hget. eauto.
Qed.

(** The filter of [pickWeaknessTest] leaves the non-null assertion of its
    [map] callback nothing to fail on. *)
Lemma scoredList_attempted allProblems latestAttempts :
  map problem (scoredList allProblems latestAttempts)
  ≡ₚ List.filter (λ p, JsMap.has latestAttempts (Problem.id p)) allProblems.
Proof.
  unfold scoredList. rewrite Array_sort_perm, map_map.
  induction (List.filter _ allProblems) as [|p l IH]; simpl; [done|].
  rewrite IH. by destruct (JsMap.get latestAttempts (Problem.id p)).
Qed.

Lemma scoredList_sorted allProblems latestAttempts :
  StronglySorted (λ s t, score t <= score s)%Q (scoredList allProblems latestAttempts).
Proof.
  unfold scoredList.
  eapply StronglySorted_mono; [|apply Array_sort_sorted].
  - intros s t Hst. simpl in Hst. apply Qle_bool_iff in Hst. lra.
  - intros s t Hst. simpl in *. apply Qle_bool_iff.
    destruct (Qlt_le_dec 0 (score t - score s)) as [Hlt|Hle].
    + lra.
    + exfalso. apply Qle_bool_iff in Hle. congruence.
  - intros s t u Hst Htu. simpl in *.
    apply Qle_bool_iff in Hst, Htu. apply Qle_bool_iff. lra.
Qed.

(** C6. [pickWeaknessTest] returns a beginning of the scored problems. The
    scored problems are the problems of the catalog that have an attempt;
    the score of each is 10 if the attempt is incorrect, 0 if not, plus the
    seconds over the target time when there are any; and they stand in the
    order of falling scores. So a problem whose attempt is incorrect stands
    in the output before every problem whose attempt is correct and less
    than 10 seconds over the target time. *)
Theorem pickWeaknessTest_order allProblems latestAttempts :
  (∀ count,
     pickWeaknessTest allProblems latestAttempts count
     `prefix_of` map problem (scoredList allProblems latestAttempts))
  ∧ map problem (scoredList allProblems latestAttempts)
    ≡ₚ List.filter (λ p, JsMap.has latestAttempts (Problem.id p)) allProblems
  ∧ (∀ s, s ∈ scoredList allProblems latestAttempts →
       ∃ a, JsMap.get latestAttempts (Problem.id (problem s)) = Some a
            ∧ (score s
               == weaknessScore (Attempt.isCorrect a) (Attempt.timeMs a)
                    (targetTimeForCategory (Problem.category (problem s)) * 1000))%Q)
  ∧ StronglySorted (λ s t, score t <= score s)%Q (scoredList allProblems latestAttempts)
  ∧ (∀ count (i j : nat) p q a b,
       pickWeaknessTest allProblems latestAttempts count !! i = Some p →
       pickWeaknessTest allProblems latestAttempts count !! j = Some q →
       JsMap.get latestAttempts (Problem.id p) = Some a →
       Attempt.isCorrect a = false →
       JsMap.get latestAttempts (Problem.id q) = Some b →
       Attempt.isCorrect b = true →
       Attempt.timeMs b - targetTimeForCategory (Problem.category q) * 1000 < 10000 →
       (i < j)%nat).
Proof.
  split; [|split; [|split; [|split]]].
  - intros count. unfold pickWeaknessTest. simpl.
    destruct (Array_slice0_take (scoredList allProblems latestAttempts) (default 20 count))
      as [n ->].
    rewrite <- firstn_map. apply prefix_take.
  - apply scoredList_attempted.
  - intros s Hs. apply scoredList_elem in Hs as (_ & a & Hget & Hscore).
    exists a. split; [done|]. rewrite Hscore at 1. apply scoreAttempt_score.
  - apply scoredList_sorted.
  - intros count i j p q a b Hi Hj Hpa Ha Hqb Hb Hover.
    unfold pickWeaknessTest in Hi, Hj. simpl in Hi, Hj.
    destruct (Array_slice0_take (scoredList allProblems latestAttempts) (default 20 count))
      as [n Hn].
    rewrite Hn in Hi, Hj.
    apply list_lookup_fmap_Some in Hi as (s & -> & Hs).
    apply list_lookup_fmap_Some in Hj as (t & -> & Ht).
    apply lookup_take_Some in Hs as [Hs _]. apply lookup_take_Some in Ht as [Ht _].
    pose proof (list_elem_of_lookup_2 _ _ _ Hs) as Hs'.
    pose proof (list_elem_of_lookup_2 _ _ _ Ht) as Ht'.
    apply scoredList_elem in Hs' as (_ & a' & Hga & Hsa).
    apply scoredList_elem in Ht' as (_ & b' & Hgb & Htb).
    assert (a' = a) as -> by congruence. assert (b' = b) as -> by congruence.
    pose proof (scoreAttempt_score (problem s) a) as Hss. rewrite <- Hsa, Ha in Hss.
    pose proof (scoreAttempt_score (problem t) b) as Hts. rewrite <- Htb, Hb in Hts.
    pose proof (weaknessScore_incorrect (Attempt.timeMs a)
                  (targetTimeForCategory (Problem.category (problem s)) * 1000)) as Hlow.
    pose proof (weaknessScore_correct_under _ _ Hover) as Hhigh.
    destruct (decide (i < j)%nat) as [|Hge]; [done|]. exfalso.
    destruct (decide (i = j)) as [->|Hne].
    + assert (s = t) as -> by congruence. congruence.
    + pose proof (StronglySorted_lookup _ _ j i t s
                    (scoredList_sorted allProblems latestAttempts)) as Hord.
      specialize (Hord ltac:(lia) Ht Hs). simpl in Hord. lra.
Qed.

(** ** The review session *)

Lemma dueSetOf_elem dueReviews p :
  Problem.id p ∈ dueSetOf dueReviews ↔ isDueProblem dueReviews p.
Proof.
  unfold dueSetOf, isDueProblem.
  rewrite elem_of_list_to_set, list_elem_of_fmap.
  split; intros (r & Hr1 & Hr2); exists r; split; congruence.
Qed.

Lemma latestAnsweredAt_answeredAtOf latestAttempts p t :
  latestAnsweredAt latestAttempts p t ↔ t = answeredAtOf latestAttempts p.
Proof.
  unfold latestAnsweredAt, answeredAtOf.
  destruct (JsMap.get latestAttempts (Problem.id p)) as [a|].
  - split.
    + intros [(a' & Ha & ->)|[Hnone _]]; congruence.
    + intros ->. left. by exists a.
  - split.
    + intros [(a' & Ha & _)|[_ ->]]; congruence.
    + intros ->. by right.
Qed.

Lemma reviewBefore_answeredAtOf dueReviews latestAttempts p q :
  reviewBefore dueReviews latestAttempts p q
  ↔ (isDueProblem dueReviews p ∧ ¬ isDueProblem dueReviews q)
    ∨ ((isDueProblem dueReviews p ↔ isDueProblem dueReviews q)
       ∧ localeCompare (answeredAtOf latestAttempts p) (answeredAtOf latestAttempts q) ≤ 0).
Proof.
  unfold reviewBefore.
  assert (Hstamp : (∀ s t, latestAnsweredAt latestAttempts p s →
                           latestAnsweredAt latestAttempts q t → localeCompare s t ≤ 0)
                   ↔ localeCompare (answeredAtOf latestAttempts p)
                       (answeredAtOf latestAttempts q) ≤ 0).
  { split.
    - intros H. apply H; by apply latestAnsweredAt_answeredAtOf.
    - intros H s t Hs%latestAnsweredAt_answeredAtOf Ht%latestAnsweredAt_answeredAtOf.
      by subst. }
  by rewrite Hstamp.
Qed.

Lemma reviewCompare_nonpos dueReviews latestAttempts p q :
  reviewCompare (dueSetOf dueReviews) latestAttempts p q ≤ 0
  ↔ reviewBefore dueReviews latestAttempts p q.
Proof.
  rewrite reviewBefore_answeredAtOf. unfold reviewCompare.
  rewrite <- !dueSetOf_elem.
  case_bool_decide as Hp; case_bool_decide as Hq; simpl; split; intros Hle;
    try lia; tauto.
Qed.

(** C7. When [localeCompare] is a total preorder, [pickReviewSession]
    returns the first [maxCount] candidates (the first 10 when the count is
    left out, [slice(0, maxCount)] of them for every integer, never more
    than a [maxCount] that is not negative). The candidates are the problems
    of the catalog that are due for review or whose latest attempt is
    incorrect, each as often as the catalog has it and no other. Among them,
    and so in the result, every due problem stands before every problem that
    is not due, and of two problems that are both due or both not due the one
    stands first whose latest attempt, as the map has it, has the older
    [answeredAt]. *)
Theorem pickReviewSession_spec allProblems latestAttempts dueReviews :
  (∀ x y, localeCompare x y ≤ 0 ∨ localeCompare y x ≤ 0) →
  (∀ x y z, localeCompare x y ≤ 0 → localeCompare y z ≤ 0 → localeCompare x z ≤ 0) →
  (∀ n : nat,
     pickReviewSession allProblems latestAttempts dueReviews (Some (Z.of_nat n))
     = take n (reviewCandidates allProblems latestAttempts dueReviews)
     ∧ (length (pickReviewSession allProblems latestAttempts dueReviews
                  (Some (Z.of_nat n))) ≤ n)%nat)
  ∧ pickReviewSession allProblems latestAttempts dueReviews None
    = take 10 (reviewCandidates allProblems latestAttempts dueReviews)
  ∧ (∀ maxCount : Z,
       pickReviewSession allProblems latestAttempts dueReviews (Some maxCount)
       = Array_slice0 (reviewCandidates allProblems latestAttempts dueReviews) maxCount
       ∧ (0 ≤ maxCount →
          Z.of_nat (length (pickReviewSession allProblems latestAttempts dueReviews
                              (Some maxCount))) ≤ maxCount))
  ∧ reviewCandidates allProblems latestAttempts dueReviews ⊆+ allProblems
  ∧ (∀ p, p ∈ reviewCandidates allProblems latestAttempts dueReviews
          ↔ p ∈ allProblems
            ∧ (isDueProblem dueReviews p ∨ latestWrong latestAttempts p))
  ∧ (∃ rest,
       allProblems ≡ₚ reviewCandidates allProblems latestAttempts dueReviews ++ rest
       ∧ ∀ p, p ∈ rest →
              ¬ (isDueProblem dueReviews p ∨ latestWrong latestAttempts p))
  ∧ StronglySorted (reviewBefore dueReviews latestAttempts)
      (reviewCandidates allProblems latestAttempts dueReviews)
  ∧ (∀ maxCount,
       StronglySorted (reviewBefore dueReviews latestAttempts)
         (pickReviewSession allProblems latestAttempts dueReviews maxCount))
  ∧ (∀ maxCount (i j : nat) p q,
       (i < j)%nat →
       pickReviewSession allProblems latestAttempts dueReviews maxCount !! i = Some p →
       pickReviewSession allProblems latestAttempts dueReviews maxCount !! j = Some q →
       (isDueProblem dueReviews q → isDueProblem dueReviews p)
       ∧ ∀ a b,
           (isDueProblem dueReviews p ↔ isDueProblem dueReviews q) →
           JsMap.get latestAttempts (Problem.id p) = Some a →
           JsMap.get latestAttempts (Problem.id q) = Some b →
           localeCompare (Attempt.answeredAt a) (Attempt.answeredAt b) ≤ 0).
Proof.
  intros Htotal Htrans.
  assert (Hsorted : StronglySorted (reviewBefore dueReviews latestAttempts)
            (reviewCandidates allProblems latestAttempts dueReviews)).
  { unfold reviewCandidates.
    eapply StronglySorted_mono; [|apply Array_sort_sorted].
    - intros p q Hpq. simpl in Hpq. apply reviewCompare_nonpos. lia.
    - intros p q Hpq. simpl in *.
      apply Z.leb_le, reviewCompare_nonpos.
      assert (Hn : ¬ reviewBefore dueReviews latestAttempts p q).
      { rewrite <- reviewCompare_nonpos. lia. }
      rewrite reviewBefore_answeredAtOf in *.
      destruct (Htotal (answeredAtOf latestAttempts p) (answeredAtOf latestAttempts q)).
      + destruct (decide (Problem.id p ∈ dueSetOf dueReviews)) as [Hp|Hp];
          destruct (decide (Problem.id q ∈ dueSetOf dueReviews)) as [Hq|Hq];
          rewrite !dueSetOf_elem in Hp, Hq; tauto.
      + destruct (decide (Problem.id p ∈ dueSetOf dueReviews)) as [Hp|Hp];
          destruct (decide (Problem.id q ∈ dueSetOf dueReviews)) as [Hq|Hq];
          rewrite !dueSetOf_elem in Hp, Hq; tauto.
    - intros p q r Hpq Hqr. simpl in *.
      apply Z.leb_le, reviewCompare_nonpos in Hpq, Hqr.
      apply Z.leb_le, reviewCompare_nonpos.
      rewrite reviewBefore_answeredAtOf in *.
      pose proof (Htrans (answeredAtOf latestAttempts p) (answeredAtOf latestAttempts q)
                    (answeredAtOf latestAttempts r)).
      tauto. }
  assert (Hout : ∀ maxCount,
            StronglySorted (reviewBefore dueReviews latestAttempts)
              (pickReviewSession allProblems latestAttempts dueReviews maxCount)).
  { intros maxCount. unfold pickReviewSession. simpl.
    destruct (Array_slice0_take (reviewCandidates allProblems latestAttempts dueReviews)
                (default 10 maxCount)) as [n ->].
    by apply StronglySorted_take. }
  split; [|split; [|split; [|split; [|split; [|split; [|split; [|split]]]]]]].
  - intros n. unfold pickReviewSession. simpl.
    split; [apply Array_slice0_nat | apply Array_slice0_length].
  - reflexivity.
  - intros maxCount. split; [reflexivity|]. intros Hpos.
    unfold pickReviewSession. simpl.
    rewrite <- (Z2Nat.id maxCount Hpos) at 2.
    rewrite <- (Z2Nat.id maxCount Hpos) at 1.
    apply Nat2Z.inj_le, Array_slice0_length.
  - unfold reviewCandidates. rewrite Array_sort_perm. apply List_filter_submseteq.
  - intros p. unfold reviewCandidates, latestWrong.
    rewrite Array_sort_elem_of, elem_of_List_filter, <- dueSetOf_elem.
    split; intros [Hp Hc]; (split; [done|]).
    + apply orb_true_iff in Hc as [Hc%bool_decide_eq_true|Hc]; [by left|].
      right. destruct (JsMap.get latestAttempts (Problem.id p)) as [a|]; [|done].
      exists a. split; [done|]. by destruct (Attempt.isCorrect a).
    + apply orb_true_iff. destruct Hc as [Hc|(a & -> & ->)]; [left|by right].
      by apply bool_decide_eq_true.
  - eexists. split.
    + unfold reviewCandidates. rewrite Array_sort_perm. apply List_filter_partition.
    + intros p Hp. apply elem_of_List_filter in Hp as [_ Hp].
      apply negb_true_iff, orb_false_iff in Hp as [Hdue Hwrong].
      apply bool_decide_eq_false in Hdue. rewrite dueSetOf_elem in Hdue.
      intros [Hd|(a & Ha & Hc)]; [done|].
      rewrite Ha, Hc in Hwrong. done.
  - exact Hsorted.
  - exact Hout.
  - intros maxCount i j p q Hij Hi Hj.
    pose proof (StronglySorted_lookup _ _ i j p q (Hout maxCount) Hij Hi Hj) as Hpq.
    destruct Hpq as [[Hp Hq]|[Hiff Hstamp]].
    + split; [done|]. intros a b Hsame. tauto.
    + split; [tauto|]. intros a b _ Ha Hb.
      apply Hstamp; left; eauto.
Qed.

(** ** The recommendations *)

Lemma Math_ceil_sixtieth (a : Z) : Math_ceil (inject_Z a / 60) = (a + 59) / 60.
Proof.
  unfold Math_ceil, Qceiling, Qfloor, Qdiv, Qmult, Qinv, Qopp, inject_Z. simpl.
  change (Z.pos (1 * 60)) with 60. replace (a * 1) with a by lia.
  Z.to_euclidean_division_equations. lia.
Qed.

Lemma speedCards_type allProblems latestAttempts card :
  card ∈ speedCards allProblems latestAttempts → type card = speed.
Proof.
  unfold speedCards. destruct (0 <? _); [|by intros ?%elem_of_nil].
  by intros ->%list_elem_of_singleton.
Qed.

Lemma categoryCards_type allProblems latestAttempts card :
  card ∈ categoryCards allProblems latestAttempts → type card = category_weak.
Proof.
  unfold categoryCards.
  destruct (foldl worseCategory None _) as [w|]; [|by intros ?%elem_of_nil].
  destruct (Qlt_bool _ _); [|by intros ?%elem_of_nil].
  by intros ->%list_elem_of_singleton.
Qed.

Lemma reviewCards_eq now dueReviews :
  reviewCards now dueReviews
  = let dueCount := Z.of_nat (length (List.filter (isReviewDue now) dueReviews)) in
    if 0 <? dueCount then
      [ mkRecommendation
          ("復習ドリル " +:+ pretty (Z.min dueCount 5) +:+ "問")
          (pretty dueCount +:+ "問が復習期限です")
          review
          (Math_ceil (inject_Z (dueCount * 50) / 60))
          None ]
    else [].
Proof. reflexivity. Qed.

(** C9. [generateRecommendations] has a card of type review exactly when
    the number of entries of [dueReviews] that are due at the current time,
    by the test of [isReviewDue] on the clock of the call, is above 0. The
    card is then the first one and the only one of its type, its title names
    min(dueCount, 5) problems, and its estimated minutes are
    dueCount * 50 / 60 rounded up. *)
Theorem generateRecommendations_review_card now allProblems latestAttempts dueReviews :
  let dueCount := Z.of_nat (length (List.filter (isReviewDue now) dueReviews)) in
  let cards := generateRecommendations now allProblems latestAttempts dueReviews in
  ((∃ card, card ∈ cards ∧ type card = review) ↔ 0 < dueCount)
  ∧ (∀ card, card ∈ cards → type card = review →
       title card = "復習ドリル " +:+ pretty (Z.min dueCount 5) +:+ "問"
       ∧ estimatedMinutes card = Math_ceil (inject_Z (dueCount * 50) / 60)
       ∧ estimatedMinutes card = (dueCount * 50 + 59) / 60
       ∧ ∃ rest, cards = card :: rest ∧ Forall (λ other, type other ≠ review) rest)
  ∧ (dueCount = 0 → Forall (λ other, type other ≠ review) cards).
Proof.
  intros dueCount cards.
  assert (Hrest : Forall (λ other, type other ≠ review)
            (speedCards allProblems latestAttempts
             ++ categoryCards allProblems latestAttempts)).
  { apply Forall_app. split; apply Forall_forall; intros other Hother.
    - by rewrite (speedCards_type _ _ _ Hother).
    - by rewrite (categoryCards_type _ _ _ Hother). }
  unfold cards, generateRecommendations. rewrite reviewCards_eq. fold dueCount. simpl.
  destruct (Z.ltb_spec 0 dueCount) as [Hdue|Hdue].
  - split; [|split].
    + split; [done|]. intros _. eexists. split; [apply list_elem_of_here|done].
    + intros card Hcard Htype. simpl in Hcard.
      apply elem_of_cons in Hcard as [->|Hcard].
      * simpl. split; [done|]. split; [done|]. split; [apply Math_ceil_sixtieth|].
        by eexists.
      * rewrite Forall_forall in Hrest. by destruct (Hrest _ Hcard).
    + lia.
  - split; [|split].
    + split; [|lia]. intros (card & Hcard & Htype).
      rewrite Forall_forall in Hrest. by destruct (Hrest _ Hcard).
    + intros card Hcard Htype.
      rewrite Forall_forall in Hrest. by destruct (Hrest _ Hcard).
    + intros _. exact Hrest.
Qed.

(** * Further properties *)

(** ** Maps *)

Section JsMapFacts.
Context {K V : Type} `{EqDecision K}.
Implicit Types (m : list (K * V)) (k : K) (v : V).

Lemma JsMap_get_set m k v k' :
  JsMap.get (JsMap.set m k v) k' = if decide (k = k') then Some v else JsMap.get m k'.
Proof.
  unfold JsMap.get. induction m as [|[k0 v0] m IH]; simpl.
  - case_bool_decide; case_decide; done.
  - case_bool_decide as Hk0; simpl in *.
    + subst k0. case_bool_decide; case_decide; done.
    + case_bool_decide as Hk0'; simpl in *; [|exact IH].
      subst k0. case_decide; [done|reflexivity].
Qed.

Lemma JsMap_has_elem m k : JsMap.has m k = true ↔ k ∈ map fst m.
Proof.
  unfold JsMap.has, JsMap.get. induction m as [|[k0 v0] m IH]; simpl.
  - split; [done|]. by intros ?%elem_of_nil.
  - case_bool_decide as Hk0; simpl in *.
    + subst k0. split; [intros _; apply list_elem_of_here | done].
    + rewrite IH, elem_of_cons. split; [by right | intros [?|?]; [congruence|done]].
Qed.

Lemma JsMap_set_keys_new m k v :
  JsMap.has m k = false → map fst (JsMap.set m k v) = map fst m ++ [k].
Proof.
  unfold JsMap.has, JsMap.get. induction m as [|[k0 v0] m IH]; simpl; [done|].
  case_bool_decide as Hk0; simpl in *; [done|].
  intros Hm. by rewrite IH.
Qed.

Lemma JsMap_set_values_new m k v :
  JsMap.has m k = false → map snd (JsMap.set m k v) = map snd m ++ [v].
Proof.
  unfold JsMap.has, JsMap.get. induction m as [|[k0 v0] m IH]; simpl; [done|].
  case_bool_decide as Hk0; simpl in *; [done|].
  intros Hm. by rewrite IH.
Qed.

End JsMapFacts.

(** ** The map of latest attempts *)

Lemma latestAttemptsStep_get m a k :
  JsMap.get (latestAttemptsStep m a) k
  = match JsMap.get m k with
    | Some b => Some b
    | None => if bool_decide (Attempt.problemId a = k) then Some a else None
    end.
Proof.
  unfold latestAttemptsStep, JsMap.has.
  destruct (JsMap.get m (Attempt.problemId a)) as [b|] eqn:Hget; simpl.
  - destruct (JsMap.get m k) eqn:Hk; [done|].
    case_bool_decide; [congruence|done].
  - rewrite JsMap_get_set. case_decide as Hk.
    + subst k. rewrite Hget. by rewrite bool_decide_eq_true_2.
    + rewrite bool_decide_eq_false_2 by done. by destruct (JsMap.get m k).
Qed.

Lemma foldl_latestAttemptsStep_get attempts m k :
  JsMap.get (foldl latestAttemptsStep m attempts) k
  = match JsMap.get m k with
    | Some b => Some b
    | None => List.find (λ a, bool_decide (Attempt.problemId a = k)) attempts
    end.
Proof.
  revert m. induction attempts as [|a attempts IH]; intros m; simpl.
  - by destruct (JsMap.get m k).
  - rewrite IH, latestAttemptsStep_get.
    destruct (JsMap.get m k); [done|]. by case_bool_decide.
Qed.

Lemma foldl_latestAttemptsStep_keys attempts m :
  NoDup (map fst m) → NoDup (map fst (foldl latestAttemptsStep m attempts)).
Proof.
  revert m. induction attempts as [|a attempts IH]; intros m Hm; simpl; [done|].
  apply IH. unfold latestAttemptsStep.
  destruct (JsMap.has m (Attempt.problemId a)) eqn:Hhas; simpl; [done|].
  rewrite JsMap_set_keys_new by done.
  apply NoDup_app. split; [done|]. split; [|apply NoDup_singleton].
  intros k Hk ->%list_elem_of_singleton.
  apply JsMap_has_elem in Hk. congruence.
Qed.

Lemma foldl_latestAttemptsStep_values attempts m :
  ∃ kept, kept `sublist_of` attempts
          ∧ map snd (foldl latestAttemptsStep m attempts) = map snd m ++ kept.
Proof.
  revert m. induction attempts as [|a attempts IH]; intros m; simpl.
  - exists []. by rewrite (right_id_L [] (++)).
  - destruct (IH (latestAttemptsStep m a)) as (kept & Hsub & ->).
    unfold latestAttemptsStep.
    destruct (JsMap.has m (Attempt.problemId a)) eqn:Hhas; simpl.
    + exists kept. split; [by apply sublist_cons|done].
    + exists (a :: kept). split; [by apply sublist_skip|].
      rewrite JsMap_set_values_new by done. by rewrite <- (assoc_L (++)).
Qed.

(** X1. The map that the screens build from the attempts is a map: no key
    stands twice. For every problem id it holds the first attempt of the
    list with that id, which is the most recent one when the store returns
    the attempts most recent first, and nothing for an id that no attempt
    has. Its attempts stand in the order of the list. *)
Theorem buildLatestAttempts_first (attempts : list Attempt.t) :
  NoDup (map fst (buildLatestAttempts attempts))
  ∧ (∀ k, JsMap.get (buildLatestAttempts attempts) k
          = List.find (λ a, bool_decide (Attempt.problemId a = k)) attempts)
  ∧ (∀ k a, (k, a) ∈ buildLatestAttempts attempts → Attempt.problemId a = k)
  ∧ map snd (buildLatestAttempts attempts) `sublist_of` attempts.
Proof.
  assert (Hget : ∀ k, JsMap.get (buildLatestAttempts attempts) k
                      = List.find (λ a, bool_decide (Attempt.problemId a = k)) attempts).
  { intros k. unfold buildLatestAttempts. by rewrite foldl_latestAttemptsStep_get. }
  assert (Hnd : NoDup (map fst (buildLatestAttempts attempts))).
  { apply foldl_latestAttemptsStep_keys. constructor. }
  split; [exact Hnd|]. split; [exact Hget|]. split.
  - intros k a Hka.
    assert (Hk : JsMap.get (buildLatestAttempts attempts) k = Some a).
    { clear Hget. revert Hnd Hka. unfold JsMap.get.
      induction (buildLatestAttempts attempts) as [|[k0 a0] m IH]; simpl.
      - by intros _ ?%elem_of_nil.
      - intros [Hk0 Hm]%NoDup_cons [Heq|Hin]%elem_of_cons.
        + injection Heq as <- <-. by rewrite bool_decide_eq_true_2.
        + case_bool_decide as Hk; simpl in *; [|by apply IH].
          subst k0. exfalso. apply Hk0.
          apply list_elem_of_fmap. by exists (k, a). }
    rewrite Hget in Hk. apply find_some in Hk as [_ Hk].
    by apply bool_decide_eq_true in Hk.
  - destruct (foldl_latestAttemptsStep_values attempts []) as (kept & Hsub & Hval).
    unfold buildLatestAttempts. by rewrite Hval.
Qed.

(** ** The scheduler: labels and due dates *)

(** X2. [getIntervalLabel] never fails: stage 0 is labelled tomorrow, 1
    three days, 2 one week, 3 two weeks, every stage from 4 on 30 days, and
    a negative stage, for which the table has no entry, gets the label that
    starts with "undefined". *)
Theorem getIntervalLabel_cases (stage : Z) :
  getIntervalLabel stage
  = if stage <? 0 then "undefined日後"
    else if stage =? 0 then "明日"
    else if stage =? 1 then "3日後"
    else if stage =? 2 then "1週間後"
    else if stage =? 3 then "2週間後"
    else "30日後".
Proof.
  unfold getIntervalLabel.
  destruct (Z.ltb_spec stage 0) as [Hneg|Hpos].
  - by rewrite REVIEW_INTERVALS_DAYS_get_neg.
  - rewrite REVIEW_INTERVALS_DAYS_get by done.
    destruct (Z.eqb_spec stage 0); [done|]. destruct (Z.eqb_spec stage 1); [done|].
    destruct (Z.eqb_spec stage 2); [done|]. by destruct (Z.eqb_spec stage 3).
Qed.

(** X3. When reading back a date that [computeNextReview] wrote gives that
    date, the entry that a call returns is due exactly from the time on that
    lies the interval of its stage after the call: there is a number of days
    in the table such that [isReviewDue] holds at a time iff that time is
    not before [now] advanced by these days. *)
Theorem computeNextReview_due_after_interval now problemId isCorrect currentItem item :
  (∀ days, days ∈ REVIEW_INTERVALS_DAYS →
     Date_parse (Date_toISOString (Date_addDays now days)) = Some (Date_addDays now days)) →
  computeNextReview now problemId isCorrect currentItem = Returns item →
  ∃ days,
    Array_get REVIEW_INTERVALS_DAYS (Z.min (ReviewQueueItem.stage item) 4) = Some days
    ∧ ∀ t, isReviewDue t item = true ↔ Date_addDays now days ≤ t.
Proof.
  intros Hround Hcall.
  destruct (Z.lt_ge_cases (stageAfter (stageOf currentItem) isCorrect) 0) as [Hneg|Hpos].
  { rewrite (computeNextReview_throws _ _ _ _ Hneg) in Hcall. discriminate. }
  destruct (computeNextReview_returns now problemId isCorrect currentItem Hpos)
    as (days & Hdays & Hret).
  rewrite Hret in Hcall. injection Hcall as <-. simpl.
  exists days. split; [exact Hdays|].
  intros t. unfold isReviewDue. simpl.
  rewrite Hround; [apply Z.leb_le|].
  unfold Array_get in Hdays. destruct (_ <? 0); [done|].
  by eapply list_elem_of_lookup_2.
Qed.

(** ** The quick session: budget and candidates *)

Lemma estimateSolveSeconds_bounds (c : Category) : 40 ≤ estimateSolveSeconds c ≤ 55.
Proof. rewrite estimateSolveSeconds_eq. destruct c; lia. Qed.

Lemma estimateTotal_app l1 l2 :
  estimateTotal (l1 ++ l2) = estimateTotal l1 + estimateTotal l2.
Proof. induction l1 as [|p l1 IH]; simpl; [done|]. rewrite IH. lia. Qed.

Lemma estimateTotal_bounds l :
  40 * Z.of_nat (length l) ≤ estimateTotal l ≤ 55 * Z.of_nat (length l).
Proof.
  induction l as [|p l IH]; simpl; [lia|].
  pose proof (estimateSolveSeconds_bounds (Problem.category p)). lia.
Qed.

Lemma estimateTotal_take (n : nat) l : estimateTotal (take n l) ≤ estimateTotal l.
Proof.
  rewrite <- (take_drop n l) at 2. rewrite estimateTotal_app.
  pose proof (estimateTotal_bounds (drop n l)). lia.
Qed.

Lemma firstOccurrences_sublist seen l : firstOccurrences seen l `sublist_of` l.
Proof.
  revert seen. induction l as [|p l IH]; intros seen; simpl; [done|].
  case_bool_decide; [by apply sublist_cons | by apply sublist_skip].
Qed.

Lemma pickFromPool_budget targetSeconds pool st :
  estimatedTime st = estimateTotal (picked st) →
  picked st = [] ∨ estimateTotal (picked st) < targetSeconds →
  match pickFromPool targetSeconds pool st with
  | inl result => StoppedAtTarget targetSeconds result
  | inr st' =>
      estimatedTime st' = estimateTotal (picked st')
      ∧ (picked st' = [] ∨ estimateTotal (picked st') < targetSeconds)
  end.
Proof.
  revert st. induction pool as [|p pool IH]; intros st Hest Hunder; simpl; [done|].
  case_bool_decide as Hin; [by apply IH|].
  assert (Hest' : estimatedTime st + estimateSolveSeconds (Problem.category p)
                  = estimateTotal (picked st ++ [p])).
  { rewrite estimateTotal_app, Hest. simpl. lia. }
  destruct (Z.leb_spec targetSeconds
              (estimatedTime st + estimateSolveSeconds (Problem.category p))) as [Hstop|Hgo].
  - exists (picked st), p. split; [done|]. split; [done|]. by rewrite <- Hest'.
  - apply IH; simpl; [done|]. right. by rewrite <- Hest'.
Qed.

Lemma pickFromPools_budget targetSeconds pools st :
  estimatedTime st = estimateTotal (picked st) →
  picked st = [] ∨ estimateTotal (picked st) < targetSeconds →
  StoppedAtTarget targetSeconds (pickFromPools targetSeconds pools st)
  ∨ ((pickFromPools targetSeconds pools st = []
      ∨ estimateTotal (pickFromPools targetSeconds pools st) < targetSeconds)
     ∧ pickFromPools targetSeconds pools st
       = picked st ++ firstOccurrences (pickedSet st) (concat pools)).
Proof.
  revert st. induction pools as [|pool pools IH]; intros st Hest Hunder; simpl.
  - right. split; [done|]. by rewrite (right_id_L [] (++)).
  - pose proof (pickFromPool_budget targetSeconds pool st Hest Hunder) as Hpool.
    pose proof (pickFromPool_first targetSeconds pool st (concat pools)) as Hfirst.
    destruct (pickFromPool targetSeconds pool st) as [result|st']; [by left|].
    destruct Hpool as [Hest' Hunder'].
    destruct (IH st' Hest' Hunder') as [Hstop|[Hend Heq]]; [by left|].
    right. split; [done|]. by rewrite Heq.
Qed.

Lemma pickQuickSession_shape targetSeconds allProblems latestAttempts dueReviews :
  StoppedAtTarget targetSeconds
    (pickQuickSession targetSeconds allProblems latestAttempts dueReviews)
  ∨ ((pickQuickSession targetSeconds allProblems latestAttempts dueReviews = []
      ∨ estimateTotal (pickQuickSession targetSeconds allProblems latestAttempts dueReviews)
        < targetSeconds)
     ∧ pickQuickSession targetSeconds allProblems latestAttempts dueReviews
       = quickCandidates allProblems latestAttempts dueReviews).
Proof.
  unfold pickQuickSession, quickCandidates.
  destruct (pickFromPools_budget targetSeconds
              [duePool allProblems dueReviews; slowPool allProblems latestAttempts;
               wrongRecentPool allProblems latestAttempts;
               unseenPool allProblems latestAttempts]
              (mkPickState [] ∅ 0)) as [Hstop|[Hend Heq]]; [done|by left|by left|].
  right. split; [done|]. rewrite Heq. simpl. by rewrite (right_id_L [] (++)).
Qed.

(** X4. [pickQuickSession] returns the shortest beginning of its candidates
    (the pools end to end, later occurrences of an id dropped) whose
    estimated time reaches the target, and all candidates when none does: it
    is empty only when there are no candidates, it holds every candidate
    when its estimate stays under the target, and each of its shorter
    beginnings that is not empty stays under the target. *)
Theorem pickQuickSession_budget targetSeconds allProblems latestAttempts dueReviews :
  let result := pickQuickSession targetSeconds allProblems latestAttempts dueReviews in
  let candidates := quickCandidates allProblems latestAttempts dueReviews in
  result `prefix_of` candidates
  ∧ (result = [] → candidates = [])
  ∧ (estimateTotal result < targetSeconds → result = candidates)
  ∧ (∀ n : nat, (0 < n < length result)%nat →
       estimateTotal (take n result) < targetSeconds).
Proof.
  intros result candidates.
  split.
  { unfold result, candidates, pickQuickSession, quickCandidates.
    etrans; [apply pickFromPools_first|]. simpl. by rewrite (right_id_L [] (++)). }
  assert (Hshape := pickQuickSession_shape targetSeconds allProblems latestAttempts dueReviews).
  fold result in Hshape. fold candidates in Hshape.
  destruct Hshape as [(init & p & Hres & Hinit & Hreach)|[Hunder Heq]].
  - split; [|split].
    + intros Hnil. rewrite Hnil in Hres. by destruct init.
    + lia.
    + intros n [Hn0 Hn]. rewrite Hres in Hn |- *.
      rewrite length_app in Hn. simpl in Hn.
      rewrite take_app_le by lia.
      pose proof (estimateTotal_take n init).
      destruct Hinit as [->|Hinit]; [simpl in Hn; lia|lia].
  - split; [|split].
    + intros Hnil. by rewrite <- Heq.
    + done.
    + intros n [Hn0 Hn]. pose proof (estimateTotal_take n result).
      destruct Hunder as [Hnil|Hunder]; [|lia].
      rewrite Hnil in Hn. simpl in Hn. lia.
Qed.

(** X5. The number of problems of a quick session follows from the target:
    from the second problem on, 40 seconds for each problem but the last stay
    under the target, and a session that leaves a candidate out has at least
    target / 55 problems. So a session of 60 seconds has two problems
    whenever there are two candidates, and never more. *)
Theorem pickQuickSession_length targetSeconds allProblems latestAttempts dueReviews :
  let result := pickQuickSession targetSeconds allProblems latestAttempts dueReviews in
  let candidates := quickCandidates allProblems latestAttempts dueReviews in
  ((length result ≤ 1)%nat ∨ 40 * (Z.of_nat (length result) - 1) < targetSeconds)
  ∧ (result = candidates ∨ targetSeconds ≤ 55 * Z.of_nat (length result))
  ∧ (targetSeconds = 60 →
       (length result ≤ 2)%nat
       ∧ ((2 ≤ length candidates)%nat → length result = 2%nat)).
Proof.
  intros result candidates.
  assert (Hshape := pickQuickSession_shape targetSeconds allProblems latestAttempts dueReviews).
  fold result in Hshape. fold candidates in Hshape.
  assert (Hupper : (length result ≤ 1)%nat
                   ∨ 40 * (Z.of_nat (length result) - 1) < targetSeconds).
  { destruct Hshape as [(init & p & Hres & Hinit & Hreach)|[Hunder Heq]].
    - rewrite Hres, length_app. simpl.
      destruct Hinit as [->|Hinit]; [left; simpl; lia|].
      right. pose proof (estimateTotal_bounds init). lia.
    - destruct Hunder as [->|Hunder]; [left; simpl; lia|].
      right. pose proof (estimateTotal_bounds result). lia. }
  assert (Hlower : result = candidates ∨ targetSeconds ≤ 55 * Z.of_nat (length result)).
  { destruct Hshape as [(init & p & Hres & Hinit & Hreach)|[Hunder Heq]]; [|by left].
    right. pose proof (estimateTotal_bounds result). lia. }
  split; [exact Hupper|]. split; [exact Hlower|].
  intros ->. split; [lia|].
  intros Hcand. destruct Hlower as [Heq|Hlower]; [rewrite Heq in *|]; lia.
Qed.

Lemma duePool_elem allProblems dueReviews p :
  p ∈ duePool allProblems dueReviews ↔ p ∈ allProblems ∧ isDueProblem dueReviews p.
Proof.
  unfold duePool. simpl.
  by rewrite Array_sort_elem_of, elem_of_List_filter, bool_decide_eq_true, dueSetOf_elem.
Qed.

Lemma slowPool_elem allProblems latestAttempts p :
  p ∈ slowPool allProblems latestAttempts
  ↔ p ∈ allProblems
    ∧ ∃ a, JsMap.get latestAttempts (Problem.id p) = Some a
           ∧ Attempt.isCorrect a = true
           ∧ targetTimeForCategory (Problem.category p) * 1000 < Attempt.timeMs a.
Proof.
  unfold slowPool. rewrite Array_sort_elem_of, elem_of_List_filter.
  split; intros [Hp Hslow]; (split; [done|]).
  - destruct (JsMap.get latestAttempts (Problem.id p)) as [a|]; [|done].
    apply andb_true_iff in Hslow as [Hc Ht]. exists a. split; [done|]. split; [done|lia].
  - destruct Hslow as (a & -> & -> & Ht). simpl. lia.
Qed.

Lemma wrongRecentPool_elem allProblems latestAttempts p :
  p ∈ wrongRecentPool allProblems latestAttempts
  ↔ p ∈ allProblems ∧ latestWrong latestAttempts p.
Proof.
  unfold wrongRecentPool, latestWrong. rewrite Array_sort_elem_of, elem_of_List_filter.
  split; intros [Hp Hw]; (split; [done|]).
  - destruct (JsMap.get latestAttempts (Problem.id p)) as [a|]; [|done].
    exists a. split; [done|]. by destruct (Attempt.isCorrect a).
  - by destruct Hw as (a & -> & ->).
Qed.

Lemma unseenPool_elem allProblems latestAttempts p :
  p ∈ unseenPool allProblems latestAttempts
  ↔ p ∈ allProblems ∧ JsMap.get latestAttempts (Problem.id p) = None.
Proof.
  unfold unseenPool, JsMap.has. rewrite Array_sort_elem_of, elem_of_List_filter.
  by destruct (JsMap.get latestAttempts (Problem.id p)); split; intros [Hp Hu].
Qed.

Lemma firstOccurrences_ids seen l p :
  p ∈ l → Problem.id p ∈ seen ∨ Problem.id p ∈ map Problem.id (firstOccurrences seen l).
Proof.
  revert seen. induction l as [|q l IH]; intros seen Hp; [by apply elem_of_nil in Hp|].
  simpl. apply elem_of_cons in Hp as [->|Hp].
  - case_bool_decide as Hin; [by left|]. right. simpl. apply list_elem_of_here.
  - case_bool_decide as Hin; [by apply IH|].
    destruct (IH ({[Problem.id q]} ∪ seen) Hp) as [Hseen|Hfirst].
    + apply elem_of_union in Hseen as [->%elem_of_singleton|Hseen]; [|by left].
      right. simpl. apply list_elem_of_here.
    + right. simpl. by apply list_elem_of_further.
Qed.

Lemma quickCandidates_elem allProblems latestAttempts dueReviews p :
  p ∈ quickCandidates allProblems latestAttempts dueReviews →
  p ∈ allProblems ∧ qualifies latestAttempts dueReviews p.
Proof.
  unfold quickCandidates, qualifies. intros Hp.
  apply (λ H, elem_of_sublist _ _ _ H (firstOccurrences_sublist _ _)) in Hp.
  rewrite !elem_of_app, duePool_elem, slowPool_elem, wrongRecentPool_elem,
    unseenPool_elem in Hp.
  tauto.
Qed.

(** X6. Every problem of a quick session is a problem of the catalog that
    qualifies: it is due, slow, wrong or unseen. A problem whose latest
    attempt is correct and within the target time is picked only if it is
    due. And the id of every catalog problem that qualifies is the id of a
    candidate, so that a session whose estimate stays under the target
    leaves no such id out. *)
Theorem pickQuickSession_qualifies targetSeconds allProblems latestAttempts dueReviews :
  let result := pickQuickSession targetSeconds allProblems latestAttempts dueReviews in
  (∀ p, p ∈ result → p ∈ allProblems ∧ qualifies latestAttempts dueReviews p)
  ∧ (∀ p a, p ∈ result →
       JsMap.get latestAttempts (Problem.id p) = Some a →
       Attempt.isCorrect a = true →
       Attempt.timeMs a ≤ targetTimeForCategory (Problem.category p) * 1000 →
       isDueProblem dueReviews p)
  ∧ (∀ p, p ∈ allProblems → qualifies latestAttempts dueReviews p →
       Problem.id p
       ∈ map Problem.id (quickCandidates allProblems latestAttempts dueReviews))
  ∧ (∀ p, estimateTotal result < targetSeconds →
       p ∈ allProblems → qualifies latestAttempts dueReviews p →
       Problem.id p ∈ map Problem.id result).
Proof.
  intros result.
  assert (Hin : ∀ p, p ∈ result → p ∈ allProblems ∧ qualifies latestAttempts dueReviews p).
  { intros p Hp. apply quickCandidates_elem.
    assert (Hpre : result `prefix_of` quickCandidates allProblems latestAttempts dueReviews).
    { unfold result, pickQuickSession, quickCandidates.
      etrans; [apply pickFromPools_first|]. simpl. by rewrite (right_id_L [] (++)). }
    destruct Hpre as [rest ->]. apply elem_of_app. by left. }
  assert (Hcand : ∀ p, p ∈ allProblems → qualifies latestAttempts dueReviews p →
            Problem.id p
            ∈ map Problem.id (quickCandidates allProblems latestAttempts dueReviews)).
  { intros p Hp Hq. unfold quickCandidates.
    destruct (firstOccurrences_ids ∅
                (duePool allProblems dueReviews ++ slowPool allProblems latestAttempts
                 ++ wrongRecentPool allProblems latestAttempts
                 ++ unseenPool allProblems latestAttempts) p) as [Hempty|Hfirst];
      [|by apply elem_of_empty in Hempty|done].
    rewrite !elem_of_app, duePool_elem, slowPool_elem, wrongRecentPool_elem,
      unseenPool_elem.
    unfold qualifies in Hq. tauto. }
  split; [exact Hin|]. split; [|split; [exact Hcand|]].
  - intros p a Hp Hget Hc Ht. destruct (Hin p Hp) as [_ Hq].
    destruct Hq as [Hdue|[(b & Hb & _ & Hslow)|[(b & Hb & Hw)|Hnone]]]; [done|..].
    + assert (b = a) as -> by congruence. lia.
    + assert (b = a) as -> by congruence. congruence.
    + congruence.
  - intros p Hunder Hp Hq.
    destruct (pickQuickSession_shape targetSeconds allProblems latestAttempts dueReviews)
      as [(init & q & Hres & Hinit & Hreach)|[_ Heq]].
    + fold result in Hreach. lia.
    + fold result in Heq. rewrite Heq. by apply Hcand.
Qed.

(** ** Sessions without repetitions, and sessions without history *)

Lemma submseteq_NoDup_ids (l k : list Problem.t) :
  l ⊆+ k → NoDup (map Problem.id k) → NoDup (map Problem.id l).
Proof.
  intros Hsub Hk.
  apply (fmap_submseteq Problem.id) in Hsub.
  apply submseteq_Permutation in Hsub as [rest Hperm].
  change (map Problem.id k) with (Problem.id <$> k) in Hk.
  rewrite Hperm in Hk. by apply NoDup_app in Hk as [Hl _].
Qed.

Lemma Array_slice0_submseteq {A} (l : list A) (e : Z) : Array_slice0 l e ⊆+ l.
Proof. destruct (Array_slice0_take l e) as [n ->]. apply submseteq_take. Qed.

Lemma pickReviewSession_submseteq allProblems latestAttempts dueReviews maxCount :
  pickReviewSession allProblems latestAttempts dueReviews maxCount ⊆+ allProblems.
Proof.
  unfold pickReviewSession. simpl. etrans; [apply Array_slice0_submseteq|].
  unfold reviewCandidates. rewrite Array_sort_perm. apply List_filter_submseteq.
Qed.

Lemma pickSpeedSession_submseteq allProblems latestAttempts maxCount :
  pickSpeedSession allProblems latestAttempts maxCount ⊆+ allProblems.
Proof.
  unfold pickSpeedSession. simpl. etrans; [apply Array_slice0_submseteq|].
  rewrite Array_sort_perm. apply List_filter_submseteq.
Qed.

Lemma pickWeaknessTest_submseteq allProblems latestAttempts count :
  pickWeaknessTest allProblems latestAttempts count ⊆+ allProblems.
Proof.
  unfold pickWeaknessTest. simpl.
  destruct (Array_slice0_take (scoredList allProblems latestAttempts) (default 20 count))
    as [n ->].
  rewrite <- firstn_map. etrans; [apply submseteq_take|].
  rewrite scoredList_attempted. apply List_filter_submseteq.
Qed.

(** X7. The review session, the speed session and the weakness test take
    their problems from the catalog, none more often than the catalog has
    it: when the ids of the catalog are pairwise different, so are the ids
    of each of these sessions, for every count. *)
Theorem sessions_NoDup allProblems latestAttempts dueReviews count :
  NoDup (map Problem.id allProblems) →
  NoDup (map Problem.id (pickReviewSession allProblems latestAttempts dueReviews count))
  ∧ NoDup (map Problem.id (pickSpeedSession allProblems latestAttempts count))
  ∧ NoDup (map Problem.id (pickWeaknessTest allProblems latestAttempts count)).
Proof.
  intros Hall. repeat split.
  - eapply submseteq_NoDup_ids; [apply pickReviewSession_submseteq|done].
  - eapply submseteq_NoDup_ids; [apply pickSpeedSession_submseteq|done].
  - eapply submseteq_NoDup_ids; [apply pickWeaknessTest_submseteq|done].
Qed.

Lemma List_filter_none {A} (f : A → bool) (l : list A) :
  (∀ x, f x = false) → List.filter f l = [].
Proof. intros Hf. induction l as [|x l IH]; simpl; [done|]. by rewrite Hf. Qed.

Lemma Array_slice0_nil {A} (e : Z) : Array_slice0 (@nil A) e = [].
Proof. destruct (Array_slice0_take (@nil A) e) as [n ->]. by destruct n. Qed.

Lemma StronglySorted_sublist {A} (R : A → A → Prop) (l k : list A) :
  l `sublist_of` k → StronglySorted R k → StronglySorted R l.
Proof.
  intros Hsub Hk. revert l Hsub.
  induction Hk as [|x k Hk IH Hx]; intros l Hsub.
  - apply sublist_nil_r in Hsub as ->. constructor.
  - apply sublist_cons_r in Hsub as [Hsub|(l' & -> & Hsub)]; [by apply IH|].
    constructor; [by apply IH|].
    rewrite Forall_forall in Hx |- *. intros y Hy.
    apply Hx. by eapply elem_of_sublist.
Qed.

Lemma prefix_is_sublist {A} (l k : list A) : l `prefix_of` k → l `sublist_of` k.
Proof. intros [rest ->]. by apply sublist_inserts_r. Qed.

(** X8. Without any attempt and without any due review, the review session,
    the speed session and the weakness test are empty for every catalog and
    every count, and there is no recommendation; the quick session then
    takes its problems from the catalog in the order of rising difficulty. *)
Theorem sessions_without_history now targetSeconds allProblems count :
  pickReviewSession allProblems [] [] count = []
  ∧ pickSpeedSession allProblems [] count = []
  ∧ pickWeaknessTest allProblems [] count = []
  ∧ generateRecommendations now allProblems [] [] = []
  ∧ pickQuickSession targetSeconds allProblems [] [] ⊆+ allProblems
  ∧ StronglySorted
      (λ p q, Difficulty_num (Problem.difficulty p) ≤ Difficulty_num (Problem.difficulty q))
      (pickQuickSession targetSeconds allProblems [] []).
Proof.
  split; [|split; [|split; [|split; [|split]]]].
  - unfold pickReviewSession, reviewCandidates. cbv zeta.
    rewrite List_filter_none; [apply Array_slice0_nil|].
    intros p. apply orb_false_iff. split; [|done].
    apply bool_decide_eq_false_2, not_elem_of_empty.
  - unfold pickSpeedSession. cbv zeta.
    rewrite List_filter_none by done. apply Array_slice0_nil.
  - unfold pickWeaknessTest, scoredList. cbv zeta.
    rewrite List_filter_none by done. simpl. by rewrite Array_slice0_nil.
  - unfold generateRecommendations, speedCards. cbv zeta.
    by rewrite List_filter_none.
  - etrans; [apply sublist_submseteq, prefix_is_sublist, pickFromPools_first|].
    simpl. rewrite (right_id_L [] (++)).
    etrans; [apply sublist_submseteq, firstOccurrences_sublist|].
    unfold duePool, slowPool, wrongRecentPool, unseenPool. cbv zeta.
    rewrite (List_filter_none (λ p, bool_decide (Problem.id p ∈ dueSetOf [])))
      by (intros p; apply bool_decide_eq_false_2, not_elem_of_empty).
    rewrite !List_filter_none by done. simpl.
    rewrite Array_sort_perm. apply List_filter_submseteq.
  - eapply StronglySorted_sublist.
    + etrans; [apply prefix_is_sublist, pickFromPools_first|].
      simpl. rewrite (right_id_L [] (++)). apply firstOccurrences_sublist.
    + unfold duePool, slowPool, wrongRecentPool, unseenPool. cbv zeta.
      rewrite (List_filter_none (λ p, bool_decide (Problem.id p ∈ dueSetOf [])))
      by (intros p; apply bool_decide_eq_false_2, not_elem_of_empty).
    rewrite !List_filter_none by done. simpl.
      eapply StronglySorted_mono; [|apply Array_sort_sorted].
      * intros p q Hpq. simpl in Hpq. lia.
      * intros p q Hpq. simpl in *. lia.
      * intros p q r Hpq Hqr. simpl in *. lia.
Qed.

(** ** The recommendations: order, speed card *)

Lemma reviewCards_type now dueReviews card :
  card ∈ reviewCards now dueReviews → type card = review.
Proof.
  unfold reviewCards. simpl. destruct (0 <? _); [|by intros ?%elem_of_nil].
  by intros ->%list_elem_of_singleton.
Qed.

Lemma reviewCards_types now dueReviews :
  map type (reviewCards now dueReviews) = []
  ∨ map type (reviewCards now dueReviews) = [review].
Proof. unfold reviewCards. simpl. destruct (0 <? _); [by right | by left]. Qed.

Lemma speedCards_types allProblems latestAttempts :
  map type (speedCards allProblems latestAttempts) = []
  ∨ map type (speedCards allProblems latestAttempts) = [speed].
Proof. unfold speedCards. simpl. destruct (0 <? _); [by right | by left]. Qed.

Lemma categoryCards_types allProblems latestAttempts :
  map type (categoryCards allProblems latestAttempts) = []
  ∨ map type (categoryCards allProblems latestAttempts) = [category_weak].
Proof.
  unfold categoryCards. simpl.
  destruct (foldl worseCategory None _) as [w|]; [|by left].
  destruct (Qlt_bool _ _); [by right | by left].
Qed.

(** X9. [generateRecommendations] returns at most three cards: at most one
    of type review, then at most one of type speed, then at most one of type
    category_weak, in this order; it never returns a card of type drill. *)
Theorem generateRecommendations_types now allProblems latestAttempts dueReviews :
  map type (generateRecommendations now allProblems latestAttempts dueReviews)
  `sublist_of` [review; speed; category_weak]
  ∧ (length (generateRecommendations now allProblems latestAttempts dueReviews) ≤ 3)%nat
  ∧ Forall (λ card, type card ≠ drill)
      (generateRecommendations now allProblems latestAttempts dueReviews).
Proof.
  assert (Hsub : map type (generateRecommendations now allProblems latestAttempts dueReviews)
                 `sublist_of` [review; speed; category_weak]).
  { unfold generateRecommendations. rewrite !map_app.
    destruct (reviewCards_types now dueReviews) as [->| ->];
      destruct (speedCards_types allProblems latestAttempts) as [->| ->];
      destruct (categoryCards_types allProblems latestAttempts) as [->| ->];
      simpl; repeat first [apply sublist_nil | apply sublist_skip | apply sublist_cons]. }
  split; [exact Hsub|]. split.
  - apply sublist_length in Hsub. by rewrite length_map in Hsub.
  - apply Forall_forall. intros card Hcard Hdrill.
    assert (Hin : drill ∈ [review; speed; category_weak]).
    { eapply elem_of_sublist; [|exact Hsub]. rewrite <- Hdrill.
      apply list_elem_of_fmap. by exists card. }
    repeat (apply elem_of_cons in Hin as [Hin|Hin]; [discriminate|]).
    by apply elem_of_nil in Hin.
Qed.

Lemma Array_sort_length {A} (f : A → A → bool) (l : list A) :
  length (Array_sort f l) = length l.
Proof. by rewrite Array_sort_perm. Qed.

Lemma Math_ceil_speed (n : Z) :
  1 ≤ n → Math_ceil (inject_Z (Z.min n 3 * 45) / 60) = Z.min n 3.
Proof.
  intros Hn. rewrite Math_ceil_sixtieth.
  assert (Hcases : Z.min n 3 = 1 ∨ Z.min n 3 = 2 ∨ Z.min n 3 = 3) by lia.
  by destruct Hcases as [-> | [-> | ->]].
Qed.

(** X10. [generateRecommendations] has a card of type speed exactly when
    the pool of slow correct answers is not empty. The card announces as
    many problems as [pickSpeedSession] returns for a count of 3, and its
    estimated minutes are that number: one minute for each problem. *)
Theorem generateRecommendations_speed_card now allProblems latestAttempts dueReviews :
  let cards := generateRecommendations now allProblems latestAttempts dueReviews in
  let drill := pickSpeedSession allProblems latestAttempts (Some 3) in
  ((∃ card, card ∈ cards ∧ type card = speed) ↔ slowPool allProblems latestAttempts ≠ [])
  ∧ (∀ card, card ∈ cards → type card = speed →
       title card = "スピード強化 " +:+ pretty (Z.of_nat (length drill)) +:+ "問"
       ∧ estimatedMinutes card = Z.of_nat (length drill)
       ∧ 1 ≤ estimatedMinutes card ≤ 3).
Proof.
  intros cards drill.
  set (n := Z.of_nat (length (slowPool allProblems latestAttempts))).
  assert (Hdrill : Z.of_nat (length drill) = Z.min n 3).
  { unfold drill, pickSpeedSession, n, slowPool. simpl.
    rewrite (Array_slice0_nat _ 3), length_take. lia. }
  assert (Hspeed : speedCards allProblems latestAttempts
                   = if 0 <? n then
                       [ mkRecommendation
                           ("スピード強化 " +:+ pretty (Z.min n 3) +:+ "問")
                           "正解だが目標時間を超過" speed
                           (Math_ceil (inject_Z (Z.min n 3 * 45) / 60)) None ]
                     else []).
  { unfold speedCards, n, slowPool. by rewrite Array_sort_length. }
  assert (Hother : ∀ card, card ∈ cards → type card = speed →
            card ∈ speedCards allProblems latestAttempts).
  { intros card Hcard Htype. unfold cards, generateRecommendations in Hcard.
    rewrite !elem_of_app in Hcard. destruct Hcard as [Hcard|[Hcard|Hcard]]; [|done|].
    - apply reviewCards_type in Hcard. congruence.
    - apply categoryCards_type in Hcard. congruence. }
  split.
  - split.
    + intros (card & Hcard & Htype). apply Hother in Hcard; [|done].
      rewrite Hspeed in Hcard. destruct (Z.ltb_spec 0 n); [|by apply elem_of_nil in Hcard].
      intros Hnil. unfold n in *. rewrite Hnil in *. simpl in *. lia.
    + intros Hne. assert (0 < n).
      { unfold n. destruct (slowPool allProblems latestAttempts); [done|simpl; lia]. }
      eexists. split.
      * unfold cards, generateRecommendations. rewrite !elem_of_app. right. left.
        rewrite Hspeed. destruct (Z.ltb_spec 0 n); [apply list_elem_of_here|lia].
      * done.
  - intros card Hcard Htype. apply Hother in Hcard; [|done].
    rewrite Hspeed in Hcard. destruct (Z.ltb_spec 0 n); [|by apply elem_of_nil in Hcard].
    apply list_elem_of_singleton in Hcard as ->. simpl.
    rewrite Math_ceil_speed, Hdrill by lia. repeat split; lia.
Qed.

(** ** The recommendations: the category card *)

Lemma JsMap_set_keys_old {K V} `{EqDecision K} (m : list (K * V)) k v :
  JsMap.has m k = true → map fst (JsMap.set m k v) = map fst m.
Proof.
  unfold JsMap.has, JsMap.get. induction m as [|[k0 v0] m IH]; simpl; [done|].
  case_bool_decide as Hk0; simpl in *; [by subst k0|].
  intros Hm. by rewrite IH.
Qed.

Lemma JsMap_get_elem {K V} `{EqDecision K} (m : list (K * V)) k v :
  NoDup (map fst m) → (k, v) ∈ m → JsMap.get m k = Some v.
Proof.
  unfold JsMap.get. induction m as [|[k0 v0] m IH]; simpl.
  - by intros _ ?%elem_of_nil.
  - intros [Hk0 Hm]%NoDup_cons [Heq|Hin]%elem_of_cons.
    + injection Heq as <- <-. by rewrite bool_decide_eq_true_2.
    + case_bool_decide as Hk; simpl in *; [|by apply IH].
      subst k0. exfalso. apply Hk0. apply list_elem_of_fmap. by exists (k, v).
Qed.

Lemma JsMap_elem_get {K V} `{EqDecision K} (m : list (K * V)) k v :
  JsMap.get m k = Some v → (k, v) ∈ m.
Proof.
  unfold JsMap.get. induction m as [|[k0 v0] m IH]; simpl; [done|].
  case_bool_decide as Hk; simpl in *.
  - intros [= <-]. subst k0. apply list_elem_of_here.
  - intros Hget. by apply list_elem_of_further, IH.
Qed.

Lemma categoryCorrect_le allProblems latestAttempts c :
  0 ≤ categoryCorrect allProblems latestAttempts c
  ≤ categoryTotal allProblems latestAttempts c.
Proof.
  unfold categoryCorrect, categoryTotal.
  pose proof (submseteq_length _ _
    (List_filter_submseteq Attempt.isCorrect
       (attemptsInCategory allProblems latestAttempts c))).
  lia.
Qed.

Lemma tallyAttempt_keys allProblems acc kv :
  NoDup (map fst acc) → NoDup (map fst (tallyAttempt allProblems acc kv)).
Proof.
  intros Hacc. unfold tallyAttempt.
  destruct (List.find _ allProblems) as [problem|]; [|done].
  destruct (JsMap.has acc (Problem.category problem)) eqn:Hhas.
  - by rewrite JsMap_set_keys_old.
  - rewrite JsMap_set_keys_new by done.
    apply NoDup_app. split; [done|]. split; [|apply NoDup_singleton].
    intros k Hk ->%list_elem_of_singleton.
    apply JsMap_has_elem in Hk. congruence.
Qed.

Lemma foldl_tallyAttempt_keys allProblems latestAttempts acc :
  NoDup (map fst acc) →
  NoDup (map fst (foldl (tallyAttempt allProblems) acc latestAttempts)).
Proof.
  revert acc. induction latestAttempts as [|kv l IH]; intros acc Hacc; simpl; [done|].
  by apply IH, tallyAttempt_keys.
Qed.

Lemma categoryTotal_cons allProblems k a l c :
  categoryTotal allProblems ((k, a) :: l) c
  = (if bool_decide (categoryOfAttempt allProblems a = Some c) then 1 else 0)
    + categoryTotal allProblems l c.
Proof.
  unfold categoryTotal, attemptsInCategory. simpl.
  case_bool_decide; simpl; lia.
Qed.

Lemma categoryCorrect_cons allProblems k a l c :
  categoryCorrect allProblems ((k, a) :: l) c
  = (if bool_decide (categoryOfAttempt allProblems a = Some c) && Attempt.isCorrect a
     then 1 else 0)
    + categoryCorrect allProblems l c.
Proof.
  unfold categoryCorrect, attemptsInCategory. simpl.
  case_bool_decide; simpl; [|lia]. destruct (Attempt.isCorrect a); simpl; lia.
Qed.

Lemma tallyAttempt_get allProblems acc k a c :
  JsMap.get (tallyAttempt allProblems acc (k, a)) c
  = if bool_decide (categoryOfAttempt allProblems a = Some c) then
      let entry := default (mkAccuracyEntry 0 0) (JsMap.get acc c) in
      Some (mkAccuracyEntry
              (correct entry + if Attempt.isCorrect a then 1 else 0) (total entry + 1))
    else JsMap.get acc c.
Proof.
  unfold tallyAttempt, categoryOfAttempt. cbn [snd].
  destruct (List.find _ allProblems) as [problem|];
    cbn [fmap option_fmap option_map]; cbv zeta.
  - rewrite JsMap_get_set. case_decide as Hc.
    + subst c. rewrite bool_decide_eq_true_2 by done.
      destruct (Attempt.isCorrect a); simpl; f_equal; f_equal; lia.
    + rewrite bool_decide_eq_false_2; [done|]. congruence.
  - by rewrite bool_decide_eq_false_2.
Qed.

(** What the loop over [latestAttempts] leaves for a category: nothing new
    when no attempt falls into it, and its entry raised by the counts of the
    category otherwise. *)
Lemma foldl_tallyAttempt_get allProblems latestAttempts acc c :
  JsMap.get (foldl (tallyAttempt allProblems) acc latestAttempts) c
  = if categoryTotal allProblems latestAttempts c =? 0 then JsMap.get acc c
    else
      let entry := default (mkAccuracyEntry 0 0) (JsMap.get acc c) in
      Some (mkAccuracyEntry
              (correct entry + categoryCorrect allProblems latestAttempts c)
              (total entry + categoryTotal allProblems latestAttempts c)).
Proof.
  revert acc. induction latestAttempts as [|[k a] l IH]; intros acc; [done|].
  pose proof (categoryCorrect_le allProblems l c) as Hle.
  simpl foldl. rewrite IH, tallyAttempt_get, categoryTotal_cons, categoryCorrect_cons.
  clear IH. cbv zeta.
  case_bool_decide as Hc; simpl.
  - destruct (Z.eqb_spec (categoryTotal allProblems l c) 0) as [Hz|Hz];
      destruct (Z.eqb_spec (1 + categoryTotal allProblems l c) 0) as [Hz'|Hz'];
      try lia; simpl; f_equal; f_equal; destruct (Attempt.isCorrect a); lia.
  - done.
Qed.

Lemma accuracyOf_lt_seven_tenths stats :
  0 < total stats →
  (accuracyOf stats < 7 # 10)%Q ↔ 10 * correct stats < 7 * total stats.
Proof.
  unfold accuracyOf. destruct stats as [c t]. simpl. intros Ht.
  destruct t as [|t|t]; try lia.
  unfold Qlt, Qdiv, Qmult, Qinv, inject_Z. simpl. lia.
Qed.

Lemma accuracyOf_le stats1 stats2 :
  0 < total stats1 → 0 < total stats2 →
  (accuracyOf stats1 <= accuracyOf stats2)%Q
  ↔ correct stats1 * total stats2 ≤ correct stats2 * total stats1.
Proof.
  unfold accuracyOf. destruct stats1 as [c1 t1], stats2 as [c2 t2]. simpl. intros Ht1 Ht2.
  destruct t1 as [|t1|t1], t2 as [|t2|t2]; try lia.
  unfold Qle, Qdiv, Qmult, Qinv, inject_Z. simpl. lia.
Qed.

Lemma Qlt_bool_iff (a b : Q) : Qlt_bool a b = true ↔ (a < b)%Q.
Proof.
  unfold Qlt_bool. rewrite negb_true_iff. split.
  - intros Hle. apply Qnot_le_lt. intros Hba. apply Qle_bool_iff in Hba. congruence.
  - intros Hlt. destruct (Qle_bool b a) eqn:Hba; [|done].
    apply Qle_bool_iff in Hba. lra.
Qed.

(** What the loop over [categoryAccuracy] leaves: the first of the entries of
    lowest accuracy among those with 3 attempts or more, if there is one. *)
Lemma foldl_worseCategory entries worst0 :
  match foldl worseCategory worst0 entries with
  | None => worst0 = None ∧ ∀ c e, (c, e) ∈ entries → total e < 3
  | Some w =>
      (worst0 = Some w
       ∨ ∃ e, (fst w, e) ∈ entries ∧ 3 ≤ total e ∧ snd w = accuracyOf e)
      ∧ (∀ w0, worst0 = Some w0 → (snd w <= snd w0)%Q)
      ∧ (∀ c e, (c, e) ∈ entries → 3 ≤ total e → (snd w <= accuracyOf e)%Q)
  end.
Proof.
  revert worst0. induction entries as [|[c e] entries IH]; intros worst0; simpl.
  - destruct worst0 as [w0|].
    + split; [by left|]. split; [intros ? [= <-]; lra|]. by intros ?? ?%elem_of_nil.
    + split; [done|]. by intros ?? ?%elem_of_nil.
  - set (w1 := worseCategory worst0 (c, e)). specialize (IH w1).
    assert (Hw1 :
      (total e < 3 ∧ w1 = worst0)
      ∨ (3 ≤ total e
         ∧ ((worst0 = None ∧ w1 = Some (c, accuracyOf e))
            ∨ (∃ w0, worst0 = Some w0 ∧ (accuracyOf e < snd w0)%Q
                     ∧ w1 = Some (c, accuracyOf e))
            ∨ (∃ w0, worst0 = Some w0 ∧ (snd w0 <= accuracyOf e)%Q ∧ w1 = worst0)))).
    { unfold w1, worseCategory. simpl. fold (accuracyOf e).
      destruct (Z.ltb_spec (total e) 3) as [Hfew|Henough]; [by left|].
      right. split; [done|]. destruct worst0 as [w0|]; [|by left].
      right. destruct (Qlt_bool (accuracyOf e) (snd w0)) eqn:Hlt.
      - left. exists w0. by apply Qlt_bool_iff in Hlt.
      - right. exists w0. split; [done|]. split; [|done].
        destruct (Qlt_le_dec (accuracyOf e) (snd w0)) as [Hlt'|Hge]; [|done].
        apply Qlt_bool_iff in Hlt'. congruence. }
    clearbody w1.
    destruct (foldl worseCategory w1 entries) as [w|].
    + destruct IH as (Hfrom & Hle0 & Hmin).
      assert (Hfurther : ∀ e', (fst w, e') ∈ entries → (fst w, e') ∈ (c, e) :: entries).
      { intros e' Hin. by apply list_elem_of_further. }
      destruct Hw1 as [[Hfew ->]|[Henough [[-> ->]|[(w0 & -> & Hlt & ->)|(w0 & -> & Hge & ->)]]]].
      * split; [|split; [done|]].
        -- destruct Hfrom as [?|(e' & Hin & Hrest)]; [by left|]. right. eauto.
        -- intros c' e' [[= -> ->]|Hin]%elem_of_cons Hen; [lia|by eapply Hmin].
      * pose proof (Hle0 _ eq_refl) as Hwe. simpl in Hwe.
        split; [|split; [done|]].
        -- right. destruct Hfrom as [[= <-]|(e' & Hin & Hrest)]; [|by eauto].
           exists e. split; [apply list_elem_of_here|done].
        -- intros c' e' [[= -> ->]|Hin]%elem_of_cons Hen; [done|by eapply Hmin].
      * pose proof (Hle0 _ eq_refl) as Hwe. simpl in Hwe.
        split; [|split].
        -- right. destruct Hfrom as [[= <-]|(e' & Hin & Hrest)]; [|by eauto].
           exists e. split; [apply list_elem_of_here|done].
        -- intros ? [= <-]. lra.
        -- intros c' e' [[= -> ->]|Hin]%elem_of_cons Hen; [done|by eapply Hmin].
      * pose proof (Hle0 _ eq_refl) as Hwe.
        split; [|split; [done|]].
        -- destruct Hfrom as [?|(e' & Hin & Hrest)]; [by left|]. right. eauto.
        -- intros c' e' [[= -> ->]|Hin]%elem_of_cons Hen; [lra|by eapply Hmin].
    + destruct IH as [Hnone Hall].
      destruct Hw1 as [[Hfew ->]|[Henough [[_ ->]|[(w0 & _ & _ & ->)|(w0 & -> & _ & ->)]]]];
        try discriminate.
      split; [done|].
      intros c' e' [[= -> ->]|Hin]%elem_of_cons; [done|by eapply Hall].
Qed.

Lemma categoryAccuracy_entries allProblems latestAttempts c e :
  (c, e) ∈ foldl (tallyAttempt allProblems) [] latestAttempts
  ↔ categoryTotal allProblems latestAttempts c ≠ 0
    ∧ e = mkAccuracyEntry (categoryCorrect allProblems latestAttempts c)
            (categoryTotal allProblems latestAttempts c).
Proof.
  pose proof (foldl_tallyAttempt_get allProblems latestAttempts [] c) as Hget.
  simpl in Hget. split.
  - intros Hin. apply JsMap_get_elem in Hin;
      [|apply foldl_tallyAttempt_keys; constructor].
    rewrite Hin in Hget.
    destruct (Z.eqb_spec (categoryTotal allProblems latestAttempts c) 0); [done|].
    by injection Hget as ->.
  - intros [Hne ->]. apply JsMap_elem_get. rewrite Hget.
    by destruct (Z.eqb_spec (categoryTotal allProblems latestAttempts c) 0).
Qed.

(** X11. [generateRecommendations] has a card of type category_weak exactly
    when some category has 3 or more attempted problems and less than 70
    percent of them correct, counting the attempts of the map whose problem
    is in the catalog. The card then names a category with 3 or more
    attempted problems whose share of correct ones is below 70 percent and
    is the lowest among the categories with 3 or more, and it estimates 3
    minutes. *)
Theorem generateRecommendations_category_card now allProblems latestAttempts dueReviews :
  let cards := generateRecommendations now allProblems latestAttempts dueReviews in
  let total := categoryTotal allProblems latestAttempts in
  let correct := categoryCorrect allProblems latestAttempts in
  ((∃ card, card ∈ cards ∧ type card = category_weak)
   ↔ ∃ c, 3 ≤ total c ∧ 10 * correct c < 7 * total c)
  ∧ (∀ card, card ∈ cards → type card = category_weak →
       ∃ c, category card = Some c
            ∧ title card = catInfoOf c +:+ "カテゴリ弱点 3問"
            ∧ estimatedMinutes card = 3
            ∧ 3 ≤ total c
            ∧ 10 * correct c < 7 * total c
            ∧ ∀ c', 3 ≤ total c' → correct c * total c' ≤ correct c' * total c).
Proof.
  intros cards total correct.
  assert (Hweak : ∀ card, card ∈ cards → type card = category_weak →
            card ∈ categoryCards allProblems latestAttempts).
  { intros card Hcard Htype. unfold cards, generateRecommendations in Hcard.
    rewrite !elem_of_app in Hcard. destruct Hcard as [Hcard|[Hcard|Hcard]]; [| |done].
    - apply reviewCards_type in Hcard. congruence.
    - apply speedCards_type in Hcard. congruence. }
  assert (Hin : ∀ card, card ∈ categoryCards allProblems latestAttempts → card ∈ cards).
  { intros card Hcard. unfold cards, generateRecommendations.
    rewrite !elem_of_app. by right; right. }
  pose proof (foldl_worseCategory (foldl (tallyAttempt allProblems) [] latestAttempts) None)
    as Hworst.
  unfold categoryCards in Hweak, Hin. cbv zeta in Hweak, Hin.
  destruct (foldl worseCategory None _) as [[c a]|].
  - destruct Hworst as (Hfrom & _ & Hmin). simpl in *.
    destruct Hfrom as [?|(e & He & Hen & ->)]; [done|].
    apply categoryAccuracy_entries in He as [Hne ->]. simpl in Hen.
    fold (total c) in *. fold (correct c) in *.
    assert (Hlt : Qlt_bool (accuracyOf (mkAccuracyEntry (correct c) (total c))) (7 # 10) = true
                  ↔ 10 * correct c < 7 * total c).
    { rewrite Qlt_bool_iff. apply accuracyOf_lt_seven_tenths. simpl. lia. }
    assert (Hlowest : ∀ c', 3 ≤ total c' → correct c * total c' ≤ correct c' * total c).
    { intros c' Hc'.
      specialize (Hmin c' (mkAccuracyEntry (correct c') (total c'))).
      apply (accuracyOf_le (mkAccuracyEntry (correct c) (total c))
               (mkAccuracyEntry (correct c') (total c'))); simpl; [lia..|].
      apply Hmin; [|done]. apply categoryAccuracy_entries. split; [|done].
      fold (total c'). lia. }
    destruct (Qlt_bool _ _) eqn:Hbool.
    + apply proj1 in Hlt. specialize (Hlt eq_refl). split.
      * split; [by eauto|]. intros _. eexists. split; [apply Hin, list_elem_of_here|done].
      * intros card Hcard Htype. apply Hweak in Hcard; [|done].
        apply list_elem_of_singleton in Hcard as ->. simpl. exists c. by repeat split.
    + split.
      * split.
        -- intros (card & Hcard & Htype). apply Hweak in Hcard; [|done].
           by apply elem_of_nil in Hcard.
        -- intros (c' & Hc' & Hlow). exfalso.
           assert (Hc : 10 * correct c < 7 * total c); [|apply Hlt in Hc; congruence].
           specialize (Hlowest c' Hc').
           pose proof (categoryCorrect_le allProblems latestAttempts c) as Hcc.
           fold (total c) in Hcc. fold (correct c) in Hcc. nia.
      * intros card Hcard Htype. apply Hweak in Hcard; [|done].
        by apply elem_of_nil in Hcard.
  - destruct Hworst as [_ Hall]. split.
    + split.
      * intros (card & Hcard & Htype). apply Hweak in Hcard; [|done].
        by apply elem_of_nil in Hcard.
      * intros (c' & Hc' & _). exfalso.
        specialize (Hall c' (mkAccuracyEntry (correct c') (total c'))). simpl in Hall.
        assert (total c' < 3); [|lia].
        apply Hall, categoryAccuracy_entries. split; [|done]. fold (total c'). lia.
    + intros card Hcard Htype. apply Hweak in Hcard; [|done].
      by apply elem_of_nil in Hcard.
Qed.

(** ** The weakness test as the screen starts it *)

Lemma buildLatestAttempts_keys (attempts : list Attempt.t) k :
  k ∈ map fst (buildLatestAttempts attempts) ↔ k ∈ map Attempt.problemId attempts.
Proof.
  rewrite <- JsMap_has_elem. unfold JsMap.has, buildLatestAttempts.
  rewrite foldl_latestAttemptsStep_get. simpl. split.
  - destruct (List.find _ attempts) as [a|] eqn:Hfind; [intros _|done].
    apply find_some in Hfind as [Hin Hk]. apply bool_decide_eq_true in Hk as <-.
    apply list_elem_of_fmap. exists a. split; [done|]. by apply list_elem_of_In.
  - intros (a & -> & Hin)%list_elem_of_fmap.
    destruct (List.find _ attempts) as [b|] eqn:Hfind; [done|].
    apply list_elem_of_In in Hin.
    pose proof (find_none _ _ Hfind a Hin) as Hno. simpl in Hno.
    by rewrite bool_decide_eq_true_2 in Hno.
Qed.

Lemma buildLatestAttempts_size (attempts : list Attempt.t) :
  length (buildLatestAttempts attempts)
  = size (list_to_set (map Attempt.problemId attempts) : gset string).
Proof.
  rewrite <- (length_map fst).
  rewrite <- (size_list_to_set (C := gset string));
    [|apply foldl_latestAttemptsStep_keys; constructor].
  f_equal. apply set_eq. intros k.
  by rewrite !elem_of_list_to_set, buildLatestAttempts_keys.
Qed.

Lemma pickWeaknessTest_length allProblems latestAttempts (n : nat) :
  length (pickWeaknessTest allProblems latestAttempts (Some (Z.of_nat n)))
  = (n `min` length (List.filter (λ p, JsMap.has latestAttempts (Problem.id p)) allProblems))%nat.
Proof.
  unfold pickWeaknessTest. simpl.
  rewrite length_map, Array_slice0_nat, length_take.
  by rewrite <- (Permutation_length (scoredList_attempted allProblems latestAttempts)),
    length_map.
Qed.

(** X12. [startWeaknessTest] starts nothing exactly when the attempts
    belong to fewer than 5 different problems. When it starts a test, the
    test has at most 10 problem ids; each is the id of a catalog problem
    that has an attempt; they are pairwise different when the ids of the
    catalog are; and when every attempt belongs to a problem of the catalog,
    the test has at least 5 of them. *)
Theorem startWeaknessTest_size (allProblems : list Problem.t) (attempts : list Attempt.t) :
  match startWeaknessTest allProblems attempts with
  | None => (size (list_to_set (map Attempt.problemId attempts) : gset string) < 5)%nat
  | Some problemIds =>
      (5 ≤ size (list_to_set (map Attempt.problemId attempts) : gset string))%nat
      ∧ (length problemIds ≤ 10)%nat
      ∧ (∀ id, id ∈ problemIds →
           id ∈ map Problem.id allProblems ∧ id ∈ map Attempt.problemId attempts)
      ∧ (NoDup (map Problem.id allProblems) → NoDup problemIds)
      ∧ ((∀ a, a ∈ attempts → Attempt.problemId a ∈ map Problem.id allProblems) →
         (5 ≤ length problemIds)%nat)
  end.
Proof.
  unfold startWeaknessTest. cbv zeta.
  pose proof (buildLatestAttempts_size attempts) as Hsize.
  destruct (Z.ltb_spec (Z.of_nat (length (buildLatestAttempts attempts))) 5) as [Hfew|Hmany];
    [lia|].
  split; [lia|].
  change (Some 10) with (Some (Z.of_nat 10)).
  split; [|split; [|split]].
  - rewrite length_map, pickWeaknessTest_length. lia.
  - intros id (p & -> & Hp)%list_elem_of_fmap.
    apply (λ H, elem_of_submseteq _ _ _ H (pickWeaknessTest_submseteq _ _ _)) in Hp as Hall.
    split; [apply list_elem_of_fmap; by exists p|].
    apply buildLatestAttempts_keys, JsMap_has_elem.
    assert (Hscored : p ∈ List.filter
              (λ p, JsMap.has (buildLatestAttempts attempts) (Problem.id p)) allProblems).
    { rewrite <- scoredList_attempted. unfold pickWeaknessTest in Hp. simpl in Hp.
      destruct (Array_slice0_take
                  (scoredList allProblems (buildLatestAttempts attempts)) (Z.of_nat 10))
        as [n Hn].
      rewrite Hn, <- firstn_map in Hp.
      by eapply elem_of_submseteq; [|apply submseteq_take]. }
    by apply elem_of_List_filter in Hscored as [_ Hhas].
  - intros Hnd. eapply submseteq_NoDup_ids; [apply pickWeaknessTest_submseteq|done].
  - intros Hcover. rewrite length_map, pickWeaknessTest_length.
    assert (Hle : (length (buildLatestAttempts attempts)
                   ≤ length (List.filter
                       (λ p, JsMap.has (buildLatestAttempts attempts) (Problem.id p))
                       allProblems))%nat); [|lia].
    rewrite <- (length_map fst (buildLatestAttempts attempts)).
    rewrite <- (length_map Problem.id (List.filter _ allProblems)).
    apply submseteq_length, NoDup_submseteq;
      [apply foldl_latestAttemptsStep_keys; constructor|].
    intros k Hk.
    pose proof Hk as Hhas. apply JsMap_has_elem in Hhas.
    apply buildLatestAttempts_keys in Hk.
    apply list_elem_of_fmap in Hk as (a & -> & Ha).
    apply Hcover, list_elem_of_fmap in Ha as (p & Hid & Hp).
    apply list_elem_of_fmap. exists p. split; [done|].
    apply elem_of_List_filter. split; [done|]. by rewrite <- Hid.
Qed.

(** ** The callers: stored review entries, the list of slow problems *)








(** ** Counts below zero *)

Lemma Array_slice0_neg {A} (l : list A) (k : positive) :
  Array_slice0 l (Z.neg k) = take (length l - Pos.to_nat k) l.
Proof.
  unfold Array_slice0. simpl. f_equal. lia.
Qed.

(** X15. A count below zero does not give an empty session: [slice(0, -k)]
    leaves out the last [k] candidates, so the review session, the speed
    session and the weakness test then return all candidates but the last
    [k], while a count of 0 gives the empty session. *)
Theorem sessions_negative_count allProblems latestAttempts dueReviews (k : positive) :
  pickReviewSession allProblems latestAttempts dueReviews (Some (Z.neg k))
  = take (length (reviewCandidates allProblems latestAttempts dueReviews) - Pos.to_nat k)
      (reviewCandidates allProblems latestAttempts dueReviews)
  ∧ pickSpeedSession allProblems latestAttempts (Some (Z.neg k))
    = take (length (slowPool allProblems latestAttempts) - Pos.to_nat k)
        (slowPool allProblems latestAttempts)
  ∧ pickWeaknessTest allProblems latestAttempts (Some (Z.neg k))
    = map problem
        (take (length (scoredList allProblems latestAttempts) - Pos.to_nat k)
           (scoredList allProblems latestAttempts))
  ∧ pickReviewSession allProblems latestAttempts dueReviews (Some 0) = []
  ∧ pickSpeedSession allProblems latestAttempts (Some 0) = []
  ∧ pickWeaknessTest allProblems latestAttempts (Some 0) = [].
Proof.
  unfold pickReviewSession, pickSpeedSession, pickWeaknessTest. cbv zeta.
  change (default 10 (Some (Z.neg k))) with (Z.neg k).
  change (default 20 (Some (Z.neg k))) with (Z.neg k).
  rewrite !Array_slice0_neg.
  repeat split; try reflexivity.
Qed.

(** ** The test session *)

Lemma handleSelectChoice_length problems currentIndex index timeMs prev :
  length (handleSelectChoice problems currentIndex index timeMs prev) = length prev.
Proof.
  unfold handleSelectChoice. destruct (prev !! currentIndex); [|done].
  apply length_insert.
Qed.

Lemma toggleFlag_length currentIndex prev : length (toggleFlag currentIndex prev) = length prev.
Proof. unfold toggleFlag. destruct (prev !! currentIndex); [|done]. apply length_insert. Qed.

Lemma applyEvent_matches problems answers event :
  (∀ i p a, problems !! i = Some p → answers !! i = Some a → answerMatches p a) →
  ∀ i p a, problems !! i = Some p → applyEvent problems answers event !! i = Some a →
           answerMatches p a.
Proof.
  intros Hinv i p a Hp Ha. destruct event as [j index timeMs|j]; simpl in Ha.
  - unfold handleSelectChoice in Ha.
    destruct (answers !! j) as [old|] eqn:Hold; [|by eapply Hinv].
    destruct (decide (j = i)) as [->|Hne].
    + rewrite list_lookup_insert_eq in Ha by (by eapply lookup_lt_Some).
      injection Ha as <-. rewrite Hp. split; simpl; [|done].
      by destruct (Hinv i p old Hp Hold).
    + rewrite list_lookup_insert_ne in Ha by done. by eapply Hinv.
  - unfold toggleFlag in Ha.
    destruct (answers !! j) as [old|] eqn:Hold; [|by eapply Hinv].
    destruct (decide (j = i)) as [->|Hne].
    + rewrite list_lookup_insert_eq in Ha by (by eapply lookup_lt_Some).
      injection Ha as <-. by destruct (Hinv i p old Hp Hold).
    + rewrite list_lookup_insert_ne in Ha by done. by eapply Hinv.
Qed.

Lemma sessionAnswers_length (problems : list Problem.t) (events : list SessionEvent) :
  length (sessionAnswers problems events) = length problems.
Proof.
  unfold sessionAnswers.
  assert (Hinit : length (initialAnswers problems) = length problems)
    by apply length_map.
  revert Hinit. generalize (initialAnswers problems).
  induction events as [|event events IH]; intros answers Hlen; simpl; [done|].
  apply IH.
  destruct event; simpl; [rewrite handleSelectChoice_length | rewrite toggleFlag_length];
    done.
Qed.

(** X16. Whatever choices are recorded and flags flipped, at whatever
    indices, a test session keeps one answer for each problem: the answers
    are as many as the problems, the answer at an index carries the id of
    the problem there, an open answer has no verdict and the time 0, and the
    verdict of an answered one says whether its choice is the correct index
    of that problem. *)
Theorem sessionAnswers_invariant (problems : list Problem.t) (events : list SessionEvent) :
  length (sessionAnswers problems events) = length problems
  ∧ (∀ i p a, problems !! i = Some p → sessionAnswers problems events !! i = Some a →
       answerMatches p a).
Proof.
  unfold sessionAnswers.
  assert (Hinit : length (initialAnswers problems) = length problems
                  ∧ ∀ i p a, problems !! i = Some p → initialAnswers problems !! i = Some a →
                             answerMatches p a).
  { unfold initialAnswers. split; [apply length_map|].
    intros i p a Hp Ha.
    change (map ?f ?l) with (f <$> l) in Ha.
    rewrite list_lookup_fmap, Hp in Ha. injection Ha as <-. by split. }
  revert Hinit. generalize (initialAnswers problems).
  induction events as [|event events IH]; intros answers [Hlen Hinv]; simpl; [done|].
  apply IH. split.
  - destruct event; simpl; [rewrite handleSelectChoice_length | rewrite toggleFlag_length];
      done.
  - by apply applyEvent_matches.
Qed.

Lemma List_filter_insert_length {A} (f : A → bool) (l : list A) (i : nat) (x y : A) :
  l !! i = Some x → f y = f x →
  length (List.filter f (<[i:=y]> l)) = length (List.filter f l).
Proof.
  revert i. induction l as [|z l IH]; intros i Hi Hf; [done|].
  destruct i as [|i]; simpl in *.
  - injection Hi as ->. rewrite Hf. by destruct (f x).
  - destruct (f z); simpl; by rewrite (IH i Hi Hf).
Qed.

(** X17. Flipping the flag twice at the same index gives the answers back,
    and flipping it changes neither the number of correct answers nor the
    number of open ones. An index at which there is no answer changes
    nothing, for the flag and for a choice. *)
Theorem toggleFlag_involutive problems currentIndex index timeMs
    (answers : list SessionAnswer.t) :
  toggleFlag currentIndex (toggleFlag currentIndex answers) = answers
  ∧ correctCount (toggleFlag currentIndex answers) = correctCount answers
  ∧ unansweredCount (toggleFlag currentIndex answers) = unansweredCount answers
  ∧ ((length answers ≤ currentIndex)%nat →
       toggleFlag currentIndex answers = answers
       ∧ handleSelectChoice problems currentIndex index timeMs answers = answers).
Proof.
  unfold toggleFlag, handleSelectChoice, correctCount, unansweredCount.
  destruct (answers !! currentIndex) as [old|] eqn:Hold.
  - pose proof (lookup_lt_Some _ _ _ Hold) as Hlt.
    rewrite list_lookup_insert_eq by done. simpl.
    rewrite list_insert_insert_eq, negb_involutive.
    rewrite !(List_filter_insert_length _ _ _ old) by done.
    split; [|split; [done|split; [done|lia]]].
    apply list_insert_id. rewrite Hold. by destruct old.
  - rewrite Hold. by repeat split.
Qed.

(** ** The test result: the breakdown by category *)

Lemma breakdownStep_tallyAnswer problems answers categoryMap i p a :
  problems !! i = Some p → answers !! i = Some a →
  breakdownStep problems answers categoryMap i = tallyAnswer categoryMap (p, a).
Proof. intros Hp Ha. unfold breakdownStep. by rewrite Hp, Ha. Qed.

Lemma breakdown_loop_zip problems answers (n k : nat) categoryMap :
  n = (length answers - k)%nat →
  foldl (breakdownStep problems answers) categoryMap (seq k n)
  = foldl tallyAnswer categoryMap (zip (drop k problems) (drop k answers)).
Proof.
  revert k categoryMap. induction n as [|n IH]; intros k categoryMap Hn; simpl.
  - rewrite (drop_ge answers) by lia. by destruct (drop k problems).
  - destruct (lookup_lt_is_Some_2 answers k) as [a Ha]; [lia|].
    rewrite (drop_S _ _ _ Ha).
    destruct (problems !! k) as [p|] eqn:Hp.
    + rewrite (drop_S _ _ _ Hp). simpl.
      rewrite (breakdownStep_tallyAnswer _ _ _ _ p a) by done.
      apply IH. lia.
    + unfold breakdownStep at 2. rewrite Hp.
      rewrite IH by lia.
      apply lookup_ge_None in Hp.
      by rewrite !(drop_ge problems) by lia.
Qed.

Lemma sumTally_set field categoryMap c cat :
  field (mkCategoryTally 0 0 0) = 0 →
  sumTally field (JsMap.set categoryMap c cat)
  = sumTally field categoryMap
    - field (default (mkCategoryTally 0 0 0) (JsMap.get categoryMap c))
    + field cat.
Proof.
  intros Hzero. unfold JsMap.get.
  induction categoryMap as [|[c0 cat0] m IH]; simpl; [lia|].
  case_bool_decide as Hc; simpl in *; [lia|]. rewrite IH. lia.
Qed.

Lemma sumTally_tallyAnswer categoryMap pairs :
  sumTally tallyTotal (foldl tallyAnswer categoryMap pairs)
  = sumTally tallyTotal categoryMap + Z.of_nat (length pairs)
  ∧ sumTally tallyCorrect (foldl tallyAnswer categoryMap pairs)
    = sumTally tallyCorrect categoryMap
      + Z.of_nat (length (List.filter answeredCorrectly (map snd pairs))).
Proof.
  revert categoryMap. induction pairs as [|[p a] pairs IH]; intros categoryMap; simpl.
  - lia.
  - destruct (IH (tallyAnswer categoryMap (p, a))) as [-> ->].
    unfold tallyAnswer. simpl. rewrite !sumTally_set by done.
    destruct (answeredCorrectly a); simpl; lia.
Qed.

Lemma JsMap_set_NoDup {K V} `{EqDecision K} (m : list (K * V)) k v :
  NoDup (map fst m) → NoDup (map fst (JsMap.set m k v)).
Proof.
  intros Hm. destruct (JsMap.has m k) eqn:Hhas.
  - by rewrite JsMap_set_keys_old.
  - rewrite JsMap_set_keys_new by done.
    apply NoDup_app. split; [done|]. split; [|apply NoDup_singleton].
    intros k' Hk ->%list_elem_of_singleton.
    apply JsMap_has_elem in Hk. congruence.
Qed.

Lemma JsMap_set_Forall {K V} `{EqDecision K} (P : V → Prop) (m : list (K * V)) k v :
  Forall (λ entry, P (snd entry)) m → P v →
  Forall (λ entry, P (snd entry)) (JsMap.set m k v).
Proof.
  intros Hm Hv. induction Hm as [|[k0 v0] m Hv0 Hm IH]; simpl.
  - by repeat constructor.
  - case_bool_decide; constructor; done.
Qed.

Lemma tallyAnswer_rows categoryMap pairs :
  NoDup (map fst categoryMap) →
  Forall (λ entry, 1 ≤ tallyTotal (snd entry)
                   ∧ 0 ≤ tallyCorrect (snd entry) ≤ tallyTotal (snd entry)) categoryMap →
  NoDup (map fst (foldl tallyAnswer categoryMap pairs))
  ∧ Forall (λ entry, 1 ≤ tallyTotal (snd entry)
                     ∧ 0 ≤ tallyCorrect (snd entry) ≤ tallyTotal (snd entry))
      (foldl tallyAnswer categoryMap pairs).
Proof.
  revert categoryMap. induction pairs as [|[p a] pairs IH]; intros categoryMap Hnd Hall;
    simpl; [done|].
  apply IH; unfold tallyAnswer; simpl.
  - by apply JsMap_set_NoDup.
  - apply (JsMap_set_Forall (λ cat, 1 ≤ tallyTotal cat ∧ 0 ≤ tallyCorrect cat ≤ tallyTotal cat));
      [done|].
    assert (Hold : 0 ≤ tallyCorrect (default (mkCategoryTally 0 0 0)
                                       (JsMap.get categoryMap (Problem.category p)))
                   ≤ tallyTotal (default (mkCategoryTally 0 0 0)
                                   (JsMap.get categoryMap (Problem.category p)))).
    { destruct (JsMap.get categoryMap (Problem.category p)) as [cat|] eqn:Hget; simpl; [|lia].
      apply JsMap_elem_get in Hget. rewrite Forall_forall in Hall.
      apply (Hall _ Hget). }
    destruct (answeredCorrectly a); simpl; lia.
Qed.

Lemma sumColumn_rows field column (categoryMap : list (Category * CategoryTally)) :
  (∀ entry, column (scoreRow entry) = field (snd entry)) →
  sumColumn column (map scoreRow categoryMap) = sumTally field categoryMap.
Proof.
  intros Hfield. unfold sumColumn, sumTally.
  induction categoryMap as [|entry m IH]; simpl; [done|].
  by rewrite Hfield, IH.
Qed.

(** X18. The breakdown by category of a test result adds up. Its rows have
    pairwise different categories, each row counts at least one problem and
    not more correct answers than problems, and the problem counts sum to
    the number of answers that have a problem. When no answer lacks its
    problem, the correct counts sum to the correct count of the result; and
    for the answers of a session, after any choices and flags, the rows sum
    to the number of questions and to the correct count. *)
Theorem categoryBreakdown_sums (problems : list Problem.t) (answers : list SessionAnswer.t) :
  NoDup (map CategoryScore.category (categoryBreakdown problems answers))
  ∧ Forall (λ row, 1 ≤ CategoryScore.total row
                   ∧ 0 ≤ CategoryScore.correct row ≤ CategoryScore.total row)
      (categoryBreakdown problems answers)
  ∧ sumColumn CategoryScore.total (categoryBreakdown problems answers)
    = Z.of_nat (length problems `min` length answers)
  ∧ ((length answers ≤ length problems)%nat →
       sumColumn CategoryScore.correct (categoryBreakdown problems answers)
       = correctCount answers)
  ∧ (∀ events,
       sumColumn CategoryScore.total
         (categoryBreakdown problems (sessionAnswers problems events))
       = totalQuestions problems
       ∧ sumColumn CategoryScore.correct
           (categoryBreakdown problems (sessionAnswers problems events))
         = correctCount (sessionAnswers problems events)).
Proof.
  assert (Hgen : ∀ answers,
    NoDup (map CategoryScore.category (categoryBreakdown problems answers))
    ∧ Forall (λ row, 1 ≤ CategoryScore.total row
                     ∧ 0 ≤ CategoryScore.correct row ≤ CategoryScore.total row)
        (categoryBreakdown problems answers)
    ∧ sumColumn CategoryScore.total (categoryBreakdown problems answers)
      = Z.of_nat (length problems `min` length answers)
    ∧ ((length answers ≤ length problems)%nat →
         sumColumn CategoryScore.correct (categoryBreakdown problems answers)
         = correctCount answers)).
  { clear answers. intros answers.
    change (categoryBreakdown problems answers)
      with (map scoreRow
              (foldl (breakdownStep problems answers) [] (seq 0 (length answers)))).
    rewrite (breakdown_loop_zip problems answers (length answers) 0) by lia.
    rewrite !drop_0.
    set (pairs := zip problems answers).
    destruct (tallyAnswer_rows [] pairs) as [Hnd Hall]; [constructor|constructor|].
    destruct (sumTally_tallyAnswer [] pairs) as [Htotal Hcorrect].
    split; [|split; [|split]].
    - by rewrite map_map.
    - apply List.Forall_map. eapply Forall_impl; [exact Hall|]. by intros entry.
    - rewrite (sumColumn_rows tallyTotal CategoryScore.total) by done.
      rewrite Htotal. simpl. unfold pairs. rewrite length_zip. lia.
    - intros Hlen. rewrite (sumColumn_rows tallyCorrect CategoryScore.correct) by done.
      rewrite Hcorrect. simpl. unfold pairs, correctCount.
      change (map snd ?l) with (snd <$> l). by rewrite snd_zip. }
  destruct (Hgen answers) as (H1 & H2 & H3 & H4).
  split; [exact H1|]. split; [exact H2|]. split; [exact H3|]. split; [exact H4|].
  intros events.
  pose proof (sessionAnswers_length problems events) as Hlen.
  destruct (Hgen (sessionAnswers problems events)) as (_ & _ & Htotal & Hcorrect).
  split.
  - rewrite Htotal, Hlen. unfold totalQuestions. lia.
  - apply Hcorrect. lia.
Qed.

Lemma List_filter_insert_count {A} (f : A → bool) (l : list A) (i : nat) (x y : A) :
  l !! i = Some x →
  (length (List.filter f (<[i:=y]> l)) + (if f x then 1 else 0)
   = length (List.filter f l) + (if f y then 1 else 0))%nat.
Proof.
  revert i. induction l as [|z l IH]; intros i Hi; [done|].
  destruct i as [|i]; simpl in *.
  - injection Hi as ->. destruct (f x), (f y); simpl; lia.
  - specialize (IH i Hi). destruct (f z); simpl; lia.
Qed.

(** X19. A freshly loaded test session has as many open answers as it has
    questions. Recording a choice at an index lowers the number of open
    answers by one when the answer there was open, and leaves it as it is
    when the answer had a choice already or when there is no answer at the
    index; so the number of open answers never rises. *)
Theorem unansweredCount_select problems currentIndex index timeMs
    (answers : list SessionAnswer.t) :
  unansweredCount (initialAnswers problems) = totalQuestions problems
  ∧ unansweredCount (handleSelectChoice problems currentIndex index timeMs answers)
    = unansweredCount answers
      - match answers !! currentIndex with
        | Some old =>
            match SessionAnswer.selectedIndex old with None => 1 | Some _ => 0 end
        | None => 0
        end
  ∧ unansweredCount (handleSelectChoice problems currentIndex index timeMs answers)
    ≤ unansweredCount answers.
Proof.
  assert (Hinit : unansweredCount (initialAnswers problems) = totalQuestions problems).
  { unfold unansweredCount, totalQuestions, initialAnswers. f_equal.
    induction problems as [|p l IH]; simpl; [done|]. by rewrite IH. }
  assert (Hstep : unansweredCount (handleSelectChoice problems currentIndex index timeMs answers)
                  = unansweredCount answers
                    - match answers !! currentIndex with
                      | Some old =>
                          match SessionAnswer.selectedIndex old with
                          | None => 1
                          | Some _ => 0
                          end
                      | None => 0
                      end).
  { unfold unansweredCount, handleSelectChoice.
    destruct (answers !! currentIndex) as [old|] eqn:Hold; [|lia].
    pose proof (List_filter_insert_count
      (λ a, match SessionAnswer.selectedIndex a with None => true | Some _ => false end)
      answers currentIndex old
      (SessionAnswer.mk (SessionAnswer.problemId old) (Some index)
         (Some match problems !! currentIndex with
               | Some currentProblem => index =? Problem.correctIndex currentProblem
               | None => false
               end) timeMs (SessionAnswer.flagged old)) Hold) as Hcount.
    simpl in Hcount. destruct (SessionAnswer.selectedIndex old); lia. }
  split; [exact Hinit|]. split; [exact Hstep|].
  rewrite Hstep. destruct (answers !! currentIndex) as [old|]; [|lia].
  destruct (SessionAnswer.selectedIndex old); lia.
Qed.

End Program.

(** * Closed instances *)

Lemma codeUnitCompare_nonpos (x y : string) :
  codeUnitCompare x y ≤ 0 ↔ String.compare x y ≠ Gt.
Proof. unfold codeUnitCompare. destruct (String.compare x y); split; (done || lia). Qed.

Lemma codeUnitCompare_total (x y : string) :
  codeUnitCompare x y ≤ 0 ∨ codeUnitCompare y x ≤ 0.
Proof.
  rewrite !codeUnitCompare_nonpos, (String.compare_antisym y x).
  destruct (String.compare x y); simpl; intuition congruence.
Qed.

Lemma String_compare_trans (x y z : string) :
  String.compare x y ≠ Gt → String.compare y z ≠ Gt → String.compare x z ≠ Gt.
Proof.
  revert y z. induction x as [|a x IH]; intros [|b y] [|c z]; simpl; try congruence.
  unfold Ascii.compare.
  destruct (N.compare_spec (Ascii.N_of_ascii a) (Ascii.N_of_ascii b)) as [Hab|Hab|Hab];
    destruct (N.compare_spec (Ascii.N_of_ascii b) (Ascii.N_of_ascii c)) as [Hbc|Hbc|Hbc];
    destruct (N.compare_spec (Ascii.N_of_ascii a) (Ascii.N_of_ascii c)) as [Hac|Hac|Hac];
    try congruence; try lia.
  apply IH.
Qed.

Lemma codeUnitCompare_trans (x y z : string) :
  codeUnitCompare x y ≤ 0 → codeUnitCompare y z ≤ 0 → codeUnitCompare x z ≤ 0.
Proof. rewrite !codeUnitCompare_nonpos. apply String_compare_trans. Qed.

(** The two calls that the specification spells out: a first correct answer
    gives stage 1 and a review 3 days later, an incorrect answer at stage 0
    stays at stage 0 with a review the next day. *)
Example computeNextReview_first_correct :
  computeNextReview fixedAddDays decimalToISOString 0 "q1" true None
  = Returns (ReviewQueueItem.mk "q1" (decimalToISOString (fixedAddDays 0 3)) 1).
Proof. reflexivity. Qed.

Example computeNextReview_wrong_at_zero :
  computeNextReview fixedAddDays decimalToISOString 0 "q1" false
    (Some (ReviewQueueItem.mk "q1" "0" 0))
  = Returns (ReviewQueueItem.mk "q1" (decimalToISOString (fixedAddDays 0 1)) 0).
Proof. reflexivity. Qed.

(** C2, the counterexample. In the scenario the call returns A before B,
    and so not B before A. *)
Lemma pickQuickSession_scenario_order :
  pickQuickSession codeUnitCompare 60 [problemA; problemB; problemC] scenarioAttempts []
  = [problemA; problemB]
  ∧ pickQuickSession codeUnitCompare 60 [problemA; problemB; problemC] scenarioAttempts []
    ≠ [problemB; problemA].
Proof. split; [by vm_compute|]. vm_compute. discriminate. Qed.

(** C2, an instance of the amended claim. *)
Lemma pickQuickSession_scenario_witness :
  pickQuickSession codeUnitCompare 60 [problemA; problemB; problemC] scenarioAttempts []
  = [problemA; problemB].
Proof.
  apply (pickQuickSession_scenario codeUnitCompare problemA problemB problemC
           scenarioAttempts attemptA attemptB); reflexivity.
Defined.

(** C3, at stage 10: a correct answer at stage 9. *)
Lemma computeNextReview_interval_cap_witness :
  last REVIEW_INTERVALS_DAYS = Some 30
  ∧ Array_get REVIEW_INTERVALS_DAYS
      (Z.min 10 (Z.of_nat (length REVIEW_INTERVALS_DAYS) - 1)) = Some 30
  ∧ computeNextReview fixedAddDays decimalToISOString 0 "q1" true
      (Some (ReviewQueueItem.mk "q1" "0" 9))
    = Returns (ReviewQueueItem.mk "q1" (decimalToISOString (fixedAddDays 0 30)) 10).
Proof.
  apply (computeNextReview_interval_cap fixedAddDays decimalToISOString 0 "q1" true
           (Some (ReviewQueueItem.mk "q1" "0" 9))).
  simpl. lia.
Defined.

(** C4, the counterexample. A correct answer to a question whose entry has
    stage -2 gives the new stage -1; the table has nothing at index -1, and
    the call throws instead of returning an entry. *)
Lemma computeNextReview_negative_stage_throws :
  computeNextReview fixedAddDays decimalToISOString 0 "q1" true
    (Some (ReviewQueueItem.mk "q1" "0" (-2)))
  = Throws (RangeError "Invalid time value")
  ∧ ¬ ∃ item,
        computeNextReview fixedAddDays decimalToISOString 0 "q1" true
          (Some (ReviewQueueItem.mk "q1" "0" (-2)))
        = Returns item.
Proof. split; [reflexivity|]. intros [item Hitem]. vm_compute in Hitem. discriminate. Qed.

(** C4, an instance of the amended claim: a correct answer at stage -1. *)
Lemma computeNextReview_total_witness :
  0 ≤ 0 < Z.of_nat (length REVIEW_INTERVALS_DAYS)
  ∧ ∃ intervalDays,
      REVIEW_INTERVALS_DAYS !! Z.to_nat 0 = Some intervalDays
      ∧ computeNextReview fixedAddDays decimalToISOString 0 "q1" true
          (Some (ReviewQueueItem.mk "q1" "0" (-1)))
        = Returns (ReviewQueueItem.mk "q1"
                     (decimalToISOString (fixedAddDays 0 intervalDays)) 0).
Proof.
  apply (computeNextReview_total_from_minus_one fixedAddDays decimalToISOString 0 "q1" true
           (Some (ReviewQueueItem.mk "q1" "0" (-1)))).
  right. simpl. lia.
Defined.

(** C6, an instance: B, answered incorrectly, stands before A, answered
    correctly 5 seconds over the target time. *)
Lemma pickWeaknessTest_order_witness :
  pickWeaknessTest [problemA; problemB; problemC] nearMissAttempts None
  = [problemB; problemA]
  ∧ (0 < 1)%nat.
Proof.
  split; [reflexivity|].
  apply (proj2 (proj2 (proj2 (proj2
           (pickWeaknessTest_order [problemA; problemB; problemC] nearMissAttempts))))
           None 0%nat 1%nat problemB problemA attemptB attemptA60);
    reflexivity.
Defined.

(** C7, an instance, with strings compared by their code units: C is due,
    and B and D were answered incorrectly, D two days before B. D, after B in
    the catalog, stands before B in the session. *)
Lemma pickReviewSession_spec_witness :
  pickReviewSession codeUnitCompare [problemA; problemB; problemC; problemD]
    wrongAttempts [reviewC] None
  = [problemC; problemD; problemB]
  ∧ pickReviewSession codeUnitCompare [problemA; problemB; problemC; problemD]
      wrongAttempts [reviewC] (Some (Z.of_nat 2))
    = take 2 (reviewCandidates codeUnitCompare [problemA; problemB; problemC; problemD]
                wrongAttempts [reviewC])
  ∧ codeUnitCompare (Attempt.answeredAt attemptDwrong) (Attempt.answeredAt attemptB) ≤ 0
  ∧ StronglySorted (reviewBefore codeUnitCompare [reviewC] wrongAttempts)
      [problemC; problemD; problemB].
Proof.
  pose proof (pickReviewSession_spec codeUnitCompare
                [problemA; problemB; problemC; problemD] wrongAttempts [reviewC]
                codeUnitCompare_total codeUnitCompare_trans)
    as (Hcount & _ & _ & _ & _ & _ & _ & Hsorted & Horder).
  split; [reflexivity|]. split; [apply (Hcount 2%nat)|]. split.
  - apply (proj2 (Horder None 1%nat 2%nat problemD problemB ltac:(lia) eq_refl eq_refl)
             attemptDwrong attemptB); [|reflexivity..].
    split; intros (r & Hr & Hid); apply list_elem_of_singleton in Hr; subst r;
      discriminate Hid.
  - exact (Hsorted None).
Defined.

(** C8, an instance: A and D are both answered correctly over the target
    time, D in 90 seconds and A in 80. D, after A in the catalog, stands
    before A in the session. *)
Lemma pickSpeedSession_slowPool_witness :
  pickSpeedSession [problemA; problemB; problemC; problemD] slowAttempts None
  = [problemD; problemA]
  ∧ pickSpeedSession [problemA; problemB; problemC; problemD] slowAttempts
      (Some (Z.of_nat 1))
    = take 1 (slowPool [problemA; problemB; problemC; problemD] slowAttempts)
  ∧ Attempt.timeMs attemptA ≤ Attempt.timeMs attemptDslow.
Proof.
  pose proof (pickSpeedSession_slowPool [problemA; problemB; problemC; problemD]
                slowAttempts)
    as (Hcount & _ & _ & _ & _ & _ & _ & Horder).
  split; [reflexivity|]. split; [apply (Hcount 1%nat)|].
  apply (Horder None 0%nat 1%nat problemD problemA attemptDslow attemptA);
    [lia | reflexivity..].
Defined.

(** An entry of [dueReviews] that is not due at the time of the call brings
    no review card: with A's entry, due at 1001, and the clock at 1000 there
    is none, and with C's entry, due at 999, there is one. *)
Example generateRecommendations_live_due_check :
  generateRecommendations decimalParse 1000 [problemA; problemB; problemC] [] [reviewA]
  = []
  ∧ map type
      (generateRecommendations decimalParse 1000 [problemA; problemB; problemC] []
         [reviewA; reviewC])
    = [review].
Proof. split; reflexivity. Qed.

(** X3, an instance: a first correct answer at time 0 is due from day 3 on. *)
Lemma computeNextReview_due_after_interval_witness :
  ∃ days,
    Array_get REVIEW_INTERVALS_DAYS (Z.min 1 4) = Some days
    ∧ ∀ t, isReviewDue decimalParse t
             (ReviewQueueItem.mk "q1" (decimalToISOString (fixedAddDays 0 3)) 1) = true
           ↔ fixedAddDays 0 days ≤ t.
Proof.
  apply (computeNextReview_due_after_interval fixedAddDays decimalToISOString decimalParse
           0 "q1" true None
           (ReviewQueueItem.mk "q1" (decimalToISOString (fixedAddDays 0 3)) 1)).
  - intros days Hdays.
    repeat (apply elem_of_cons in Hdays as [->|Hdays]; [reflexivity|]).
    by apply elem_of_nil in Hdays.
  - reflexivity.
Defined.

(** X7, an instance: the scenario's catalog, with C due. *)
Lemma sessions_NoDup_witness :
  NoDup (map Problem.id
           (pickReviewSession codeUnitCompare [problemA; problemB; problemC]
              scenarioAttempts [reviewC] None))
  ∧ NoDup (map Problem.id
             (pickSpeedSession [problemA; problemB; problemC] scenarioAttempts None))
  ∧ NoDup (map Problem.id
             (pickWeaknessTest [problemA; problemB; problemC] scenarioAttempts None)).
Proof.
  apply (sessions_NoDup codeUnitCompare [problemA; problemB; problemC] scenarioAttempts
           [reviewC] None).
  apply (bool_decide_unpack _). vm_compute. exact I.
Defined.

